(** * reflow_latex: cost-based line segmentation of LaTeX prose

    A shallow embedding of [reflow_latex.py] (Classifier [paragraphs],
    Tokenizer [tokenize], Span Joiner [join_spans], Cost Model
    [line_cost] / [static_costs], Segmenter [segment], and the composed
    pipeline [reflow]) together with the properties of these functions.

    Conventions of the embedding.
    - A Python [str] is a [list ascii]; every [ascii] stands for one code
      point in the range 0..255, and [length] is Python's [len].
    - The cost arrays are NumPy [float64] arrays.  Every finite value that
      the program stores in them is an integer built from the integer
      constants below by additions, so the float arithmetic is exact and is
      modelled in [Z]; the only non-finite value, [np.infty], is the
      constructor [Inf] of [cost].
    - Generators are modelled by the lists they yield. *)

From Stdlib Require Import String Ascii Bool Arith ZArith Lia List.
Import ListNotations.

Local Open Scope Z_scope.

(** ** Python strings *)

Set Warnings "-notation-for-abbreviation".
Notation str := (list ascii) (only parsing).

Definition lit (s : string) : str := list_ascii_of_string s.

Definition code (c : ascii) : N := N_of_ascii c.

Definition NL : ascii := "010"%char.
Definition TAB : ascii := "009"%char.
Definition SPACE : ascii := " "%char.

(** [str.isspace] on one code point below 256. *)
Definition isspace (c : ascii) : bool :=
  let n := code c in
  ((9 <=? n) && (n <=? 13))%N || ((28 <=? n) && (n <=? 32))%N
  || (n =? 133)%N || (n =? 160)%N.

(** [str.lower] on one code point below 256. *)
Definition lower_char (c : ascii) : ascii :=
  let n := code c in
  if ((65 <=? n) && (n <=? 90))%N
     || ((192 <=? n) && (n <=? 222) && negb (n =? 215))%N
  then ascii_of_N (n + 32) else c.

Definition lower (s : str) : str := map lower_char s.

Fixpoint dropwhile (p : ascii -> bool) (s : str) : str :=
  match s with
  | [] => []
  | c :: s' => if p c then dropwhile p s' else s
  end.

Definition lstrip_by (p : ascii -> bool) (s : str) : str := dropwhile p s.
Definition rstrip_by (p : ascii -> bool) (s : str) : str :=
  rev (dropwhile p (rev s)).
Definition strip_by (p : ascii -> bool) (s : str) : str :=
  rstrip_by p (lstrip_by p s).

(** [s.strip()] *)
Definition strip (s : str) : str := strip_by isspace s.

(** [s.strip('\n')] *)
Definition strip_nl (s : str) : str := strip_by (Ascii.eqb NL) s.

(** [s.split()]: maximal runs of non-whitespace characters. [acc] holds the
    characters of the run being read, most recent first. *)
Fixpoint split_go (acc : str) (s : str) : list str :=
  match s with
  | [] => match acc with [] => [] | _ => [rev acc] end
  | c :: s' =>
      if isspace c
      then match acc with
           | [] => split_go [] s'
           | _ => rev acc :: split_go [] s'
           end
      else split_go (c :: acc) s'
  end.

Definition split (s : str) : list str := split_go [] s.

(** [sep.join(parts)] *)
Fixpoint join (sep : str) (parts : list str) : str :=
  match parts with
  | [] => []
  | [p] => p
  | p :: ps => p ++ sep ++ join sep ps
  end.

Fixpoint startswith (p s : str) : bool :=
  match p, s with
  | [], _ => true
  | _ :: _, [] => false
  | a :: p', b :: s' => Ascii.eqb a b && startswith p' s'
  end.

(** [sub in s] for strings *)
Fixpoint contains (sub s : str) : bool :=
  startswith sub s
  || match s with
     | [] => false
     | _ :: s' => contains sub s'
     end.

Definition str_eqb (a b : str) : bool :=
  if list_eq_dec ascii_dec a b then true else false.

(** [x in xs] for a list of strings *)
Definition mem_str (x : str) (xs : list str) : bool := existsb (str_eqb x) xs.

(** [l[a:b]] for [0 <= a], [0 <= b] *)
Definition slice {A} (a b : nat) (l : list A) : list A :=
  firstn (b - a) (skipn a l).

(** [enumerate(l)] *)
Definition enumerate {A} (l : list A) : list (nat * A) :=
  combine (seq 0 (length l)) l.

(** ** Constants *)

Definition CHARS_OPT : Z := 80.
Definition CHARS_LONG : Z := 115.
Definition CHARS_MAX : Z := 120.

Definition COST_LINE : Z := 1 * (CHARS_MAX - CHARS_OPT).
Definition COST_LONG : Z := 5.
Definition COST_TOOLONG : Z := 100.

Definition COST_SHORTDELIMITED : Z := 80.

Definition COST_FULLSTOP : Z := -55.
Definition COST_COMMA : Z := -38.
Definition COST_FUNC : Z := -15.

Definition FULLSTOPS : str := lit ".!?".
Definition COMMAS : str := lit ",:".
Definition FUNC_WORDS : list str :=
  map lit ["a"; "and"; "are"; "as"; "but"; "by"; "for"; "having";
           "in"; "is"; "of"; "or"; "that"; "this"; "the"; "to"; "using";
           "were"; "where"; "when"; "which"; "with"; "without"]%string.
Definition DELIMS : list (str * str) :=
  [(lit "{", lit "}"); (lit "(", lit ")"); (lit "[", lit "]");
   (lit "``", lit "''")].

Definition SHORT_DELIM : Z := 4.

(** ** Cost model *)

(** [costs[i] += d]; the program only uses indices inside the array. *)
Fixpoint add_at (i : nat) (d : Z) (costs : list Z) : list Z :=
  match costs, i with
  | [], _ => []
  | c :: cs, O => (c + d) :: cs
  | c :: cs, S i' => c :: add_at i' d cs
  end.

(** [costs[a:b] += d] *)
Definition add_range (a b : nat) (d : Z) (costs : list Z) : list Z :=
  firstn a costs ++ map (fun c => c + d) (slice a b costs) ++
  skipn (Nat.max a b) costs.

(** [l[i] = x] *)
Fixpoint upd {A} (i : nat) (x : A) (l : list A) : list A :=
  match l, i with
  | [], _ => []
  | _ :: l', O => x :: l'
  | y :: l', S i' => y :: upd i' x l'
  end.

Definition sc_state : Type := list Z * list (option nat).

(** Body of the loop over [enumerate(DELIMS)] in [static_costs]. *)
Definition delim_step (i : nat) (token : str) (st : sc_state)
    (jd : nat * (str * str)) : sc_state :=
  let '(costs, open_delims) := st in
  let '(j, delim) := jd in
  let open_delims :=
    if contains (fst delim) token && negb (contains (snd delim) token)
    then upd j (Some i) open_delims else open_delims in
  if contains (snd delim) token
  then match nth j open_delims None with
       | Some o =>
           let costs :=
             if Z.of_nat o >=? Z.of_nat i - SHORT_DELIM
             then add_range o i COST_SHORTDELIMITED costs else costs in
           (costs, upd j None open_delims)
       | None => (costs, open_delims)
       end
  else (costs, open_delims).

(** The adjustments of [static_costs] that depend on the token alone. *)
Definition lex_step (i : nat) (token : str) (costs : list Z) : list Z :=
  let lastc := [last token SPACE] in
  let costs := if contains lastc FULLSTOPS
               then add_at i COST_FULLSTOP costs else costs in
  let costs := if contains lastc COMMAS
               then add_at i COST_COMMA costs else costs in
  if mem_str (lower token) FUNC_WORDS
  then let costs := add_at i (- COST_FUNC) costs in
       if (0 <? i)%nat then add_at (i - 1) COST_FUNC costs else costs
  else costs.

(** Body of the loop over [enumerate(line)] in [static_costs]. *)
Definition token_step (st : sc_state) (it : nat * str) : sc_state :=
  let '(i, token) := it in
  if (length token =? 0)%nat then st
  else fold_left (delim_step i token) (enumerate DELIMS)
                 (lex_step i token (fst st), snd st).

Definition sc_init (n : nat) : sc_state :=
  (repeat 0 n, repeat None (length DELIMS)).

Definition static_state (line : list str) : sc_state :=
  fold_left token_step (enumerate line) (sc_init (length line)).

Definition static_costs (line : list str) : list Z :=
  fst (static_state line).

Definition n_chars (line : list str) : Z :=
  Z.of_nat (length (join [SPACE] line)).

Definition line_cost (line : list str) : Z :=
  let n := n_chars line in
  let extra := if n >? CHARS_MAX then COST_TOOLONG else 0 in
  let extra := if n >? CHARS_LONG then extra + COST_LONG else extra in
  Z.abs (n - CHARS_OPT) + COST_LINE + extra.

(** ** Segmenter *)

(** An entry of a float array: a finite (integer-valued) number or
    [np.infty]. *)
Inductive cost : Type :=
| Fin (z : Z)
| Inf.

Definition cadd (a b : cost) : cost :=
  match a, b with
  | Fin x, Fin y => Fin (x + y)
  | _, _ => Inf
  end.

Definition cltb (a b : cost) : bool :=
  match a, b with
  | Fin x, Fin y => x <? y
  | Fin _, Inf => true
  | Inf, _ => false
  end.

(** [np.argmin]: index of the first occurrence of the minimum. *)
Fixpoint argmin_from (l : list cost) (i best : nat) (bv : cost) : nat :=
  match l with
  | [] => best
  | x :: l' =>
      if cltb x bv then argmin_from l' (S i) i x
      else argmin_from l' (S i) best bv
  end.

Definition argmin (l : list cost) : nat :=
  match l with
  | [] => O
  | x :: l' => argmin_from l' 1 0 x
  end.

Definition noblank (tokens : list str) : list str :=
  filter (fun x => (0 <? length x)%nat) tokens.

Definition dp_state : Type := list cost * list Z.

(** The loop [for i in range(j)] filling [current]. *)
Definition fill_current (line : list str) (dpcost : list cost) (j : nat)
    (current : list cost) : list cost :=
  fold_left
    (fun cur i =>
       let start_to_i := nth i dpcost Inf in
       let i_to_j := line_cost (slice (i + 1) j line) in
       upd i (cadd start_to_i (Fin i_to_j)) cur)
    (seq 0 j) current.

(** Body of the loop [for j in range(1, n_tokens)]. *)
Definition dp_step (line : list str) (scosts : list Z) (st : dp_state)
    (j : nat) : dp_state :=
  let '(dpcost, dpback) := st in
  let current := fill_current line dpcost j (repeat Inf (length line)) in
  let best := argmin current in
  let dpback := upd j (Z.of_nat best) dpback in
  let dpcost := upd j (cadd (nth best current Inf)
                            (Fin (nth (j - 1) scosts 0))) dpcost in
  (dpcost, dpback).

Definition dp_init (n_tokens : nat) : dp_state :=
  (upd 0 (Fin 0) (repeat Inf n_tokens), upd 0 (-1) (repeat 0 n_tokens)).

(** The tables [dpcost], [dpback] after the loop, for [line] with the
    sentinel already prepended. *)
Definition dp_tables (line : list str) : dp_state :=
  fold_left (dp_step line (static_costs line))
            (seq 1 (length line - 1)) (dp_init (length line)).

(** The reconstruction loop [while cursor > -1]; [None] when [fuel] runs
    out. *)
Fixpoint walk (fuel : nat) (line : list str) (dpback : list Z)
    (cursor prevcursor : Z) (out : list str) : option (list str) :=
  match fuel with
  | O => None
  | S fuel' =>
      if cursor >? -1
      then walk fuel' line dpback
                (nth (Z.to_nat cursor) dpback 0) cursor
                (out ++ [join [SPACE]
                   (noblank (slice (Z.to_nat cursor) (Z.to_nat prevcursor)
                                   line))])
      else Some out
  end.

Definition segment_opt (line0 : list str) : option (list str) :=
  let line := [] :: line0 in
  let n_tokens := length line in
  let dpback := snd (dp_tables line) in
  let cursor := last dpback 0 in
  option_map (@rev str)
    (walk (S n_tokens) line dpback cursor (Z.of_nat n_tokens) []).

(** [segment(line)]; the default is never taken: the loop always ends,
    see [segment_structure]. *)
Definition segment (line0 : list str) : list str :=
  match segment_opt line0 with
  | Some out => out
  | None => []
  end.

(** ** Spans *)

Inductive policy : Type := allow | prefer | forbid.

Definition policy_eqb (a b : policy) : bool :=
  match a, b with
  | allow, allow | prefer, prefer | forbid, forbid => true
  | _, _ => false
  end.

(** The class [Span].  [C] is the type of [content]: [str] as built by
    [__init__], [list str] after [tokenize]. *)
Module Span.

Record t (C : Type) : Type := make {
  content : C;
  segment : bool;
  join_left : policy;
  join_right : policy
}.

Arguments make {C} _ _ _ _.
Arguments content {C} _.
Arguments segment {C} _.
Arguments join_left {C} _.
Arguments join_right {C} _.

(** [Span(parts, ...)] with [parts] a [str] *)
Definition of_str (parts : str) (seg : bool) (jl jr : policy) : t str :=
  make parts seg jl jr.

(** [Span(parts, ...)] with [parts] a list of strings *)
Definition of_parts (parts : list str) (seg : bool) (jl jr : policy)
  : t str :=
  make (strip (join [] parts)) seg jl jr.

Definition tokenize (s : t str) : t (list str) :=
  if segment s
  then make (split (content s)) (segment s) (join_left s) (join_right s)
  else make [content s] (segment s) (join_left s) (join_right s).

(** [previous.content.extend(span.content)], with [ext] the
    concatenation of the content type *)
Definition extend {C} (ext : C -> C -> C) (previous span : t C) : t C :=
  make (ext (content previous) (content span)) (segment previous)
       (join_left previous) (join_right previous).

End Span.

(** ** Classifier *)

Definition BACKSLASH : ascii := "\"%char.
Definition PERCENT : ascii := "%"%char.
Definition RBRACE : ascii := "}"%char.
Definition HYPHEN : ascii := "-"%char.

(** [$]: at the end of the string or just before a newline that ends it. *)
Definition at_dollar (s : str) : bool :=
  match s with
  | [] => true
  | [c] => Ascii.eqb c NL
  | _ => false
  end.

(** [len(RE_STARTSPACE.findall(line)) > 0], the pattern being [^[ \t]] *)
Definition RE_STARTSPACE (line : str) : bool :=
  match line with
  | [] => false
  | c :: _ => Ascii.eqb c SPACE || Ascii.eqb c TAB
  end.

(** A percent sign in [s] that is not preceded by a backslash, [prev]
    telling whether the character before [s] is a backslash. *)
Fixpoint comment_from (prev : bool) (s : str) : bool :=
  match s with
  | [] => false
  | c :: s' =>
      (Ascii.eqb c PERCENT && negb prev)
      || comment_from (Ascii.eqb c BACKSLASH) s'
  end.

(** [len(RE_COMMENT.findall(line)) > 0], the pattern being [(?<!\\)%] *)
Definition RE_COMMENT (line : str) : bool := comment_from false line.

(** What may follow the closing brace: [%$], [$], and [%?$]. *)
Definition tail_percent (r : str) : bool :=
  match r with
  | c :: r' => Ascii.eqb c PERCENT && at_dollar r'
  | [] => false
  end.

Definition tail_plain (r : str) : bool := at_dollar r.

Definition tail_opt_percent (r : str) : bool :=
  tail_plain r || tail_percent r.

(** [.*}T] matched at the start of [s], for [T] one of the tails above:
    either [.*] stops here and [}T] follows, or [.] takes one character
    other than a newline. *)
Fixpoint command_tail (tail : str -> bool) (s : str) : bool :=
  match s with
  | [] => false
  | c :: r =>
      (Ascii.eqb c RBRACE && tail r)
      || (negb (Ascii.eqb c NL) && command_tail tail r)
  end.

(** [re.compile(r'^\\.*}T').match(line)] *)
Definition single_command (tail : str -> bool) (line : str) : bool :=
  match line with
  | [] => false
  | c :: r => Ascii.eqb c BACKSLASH && command_tail tail r
  end.

(** [RE_SINGLECOMMAND.match(line)], the pattern being [^\\.*}%?$] *)
Definition RE_SINGLECOMMAND (line : str) : bool :=
  single_command tail_opt_percent line.

(** [len(RE_ENDBREAK.findall(line)) > 0], the pattern being [\\\\$] *)
Fixpoint RE_ENDBREAK (line : str) : bool :=
  match line with
  | [] => false
  | c :: r =>
      (Ascii.eqb c BACKSLASH
       && match r with
          | c' :: r' => Ascii.eqb c' BACKSLASH && at_dollar r'
          | [] => false
          end)
      || RE_ENDBREAK r
  end.

(** One iteration of the loop of [paragraphs]: the spans yielded and the
    new value of [current]. *)
Definition paragraphs_step (hyphenated : bool) (current : list str)
    (line : str) : list (Span.t str) * list str :=
  if RE_STARTSPACE line
  then ([Span.of_parts current true allow allow;
         Span.of_str (strip_nl line) false forbid forbid], [])
  else
    let line := strip line in
    if (length line =? 0)%nat
    then ([Span.of_parts current true allow allow;
           Span.of_str [] false allow forbid], [])
    else if RE_COMMENT line
    then ([Span.of_parts current true allow allow;
           Span.of_str line false prefer forbid], [])
    else if RE_SINGLECOMMAND line
    then ([Span.of_parts current true allow allow;
           Span.of_str line false forbid forbid], [])
    else
      let '(sep, line) :=
        if hyphenated && Ascii.eqb (last line SPACE) HYPHEN
        then ([], removelast line) else ([SPACE], line) in
      let current := current ++ [line; sep] in
      if RE_ENDBREAK line
      then ([Span.of_parts current true allow forbid], [])
      else ([], current).

Fixpoint paragraphs_from (hyphenated : bool) (current : list str)
    (lines : list str) : list (Span.t str) :=
  match lines with
  | [] => [Span.of_parts current true allow allow]
  | line :: lines' =>
      let '(out, current') := paragraphs_step hyphenated current line in
      out ++ paragraphs_from hyphenated current' lines'
  end.

Definition paragraphs (lines : list str) : list (Span.t str) :=
  paragraphs_from true [] lines.

(** ** Span Joiner *)

Fixpoint join_spans_from {C} (ext : C -> C -> C)
    (previous : option (Span.t C)) (spans : list (Span.t C))
  : list (Span.t C) :=
  match spans with
  | [] => match previous with
          | Some p => [p]
          | None => []
          end
  | span :: spans' =>
      match previous with
      | None => join_spans_from ext (Some span) spans'
      | Some p =>
          if policy_eqb (Span.join_right p) forbid
          then p :: join_spans_from ext (Some span) spans'
          else if policy_eqb (Span.join_left span) prefer
          then join_spans_from ext (Some (Span.extend ext p span)) spans'
          else p :: join_spans_from ext (Some span) spans'
      end
  end.

(** [join_spans] as the pipeline runs it, on tokenized spans *)
Definition join_spans (spans : list (Span.t (list str)))
  : list (Span.t (list str)) :=
  join_spans_from (@app str) None spans.

(** ** Pipeline *)

Definition segment_spans (spans : list (Span.t (list str))) : list str :=
  flat_map
    (fun span =>
       let segments :=
         if Span.segment span then segment (Span.content span)
         else Span.content span in
       map (fun seg => seg ++ [NL]) segments)
    spans.

Definition reflow (items : list str) : list str :=
  segment_spans (join_spans (map Span.tokenize (paragraphs items))).

(** * Definitions used in the statements *)

(** ** Join policies *)

(** The content ends with the hard line break. *)
Definition ends_with_break (s : str) : Prop :=
  exists pre, s = pre ++ [BACKSLASH; BACKSLASH].

(** The policy of a reflow-eligible span: [join_left] is [allow], and
    [join_right] is [allow], or [forbid] on a content that [ends] holds
    of. *)
Definition eligible_policy {C} (ends : C -> Prop) (s : Span.t C) : Prop :=
  Span.segment s = true ->
  Span.join_left s = allow /\
  (Span.join_right s = allow \/
   (Span.join_right s = forbid /\ ends (Span.content s))).

Definition same_policy {C D} (s : Span.t C) (s0 : Span.t D) : Prop :=
  Span.segment s = Span.segment s0 /\
  Span.join_left s = Span.join_left s0 /\
  Span.join_right s = Span.join_right s0.

(** ** The run of [static_costs] *)

(** The state of [static_costs] when its loop reaches index [i]. *)
Definition static_prefix (line : list str) (i : nat) : sc_state :=
  fold_left token_step (firstn i (enumerate line)) (sc_init (length line)).

(** The state when, at the token of index [i], the loop over [DELIMS]
    reaches the pair of index [j]. *)
Definition state_at (line : list str) (i j : nat) : sc_state :=
  let token := nth i line [] in
  fold_left (delim_step i token) (firstn j (enumerate DELIMS))
            (lex_step i token (fst (static_prefix line i)),
             snd (static_prefix line i)).

(** [token] sets the open marker of the pair [d] / clears it. *)
Definition opens_pair (d : str * str) (token : str) : bool :=
  (0 <? length token)%nat
  && contains (fst d) token && negb (contains (snd d) token).

Definition closes_pair (d : str * str) (token : str) : bool :=
  (0 <? length token)%nat && contains (snd d) token.

(** [o] is the last index before [i] whose token contains the opening but
    not the closing marker of [d], and no token between the two contains
    the closing marker. *)
Definition open_since (d : str * str) (line : list str) (i o : nat) : Prop :=
  (o < i)%nat /\
  opens_pair d (nth o line []) = true /\
  forall k, (o < k < i)%nat ->
            opens_pair d (nth k line []) = false /\
            closes_pair d (nth k line []) = false.

(** The open marker [m] of the pair [d] records [open_since] for the
    tokens before [bound]. *)
Definition marker_inv (line : list str) (bound : nat) (d : str * str)
    (m : option nat) : Prop :=
  forall o, m = Some o <-> open_since d line bound o.

Definition inner_inv (line : list str) (i j : nat) (st : sc_state) : Prop :=
  length (fst st) = length line /\
  length (snd st) = length DELIMS /\
  forall j' d, nth_error DELIMS j' = Some d ->
    marker_inv line (if (j' <? j)%nat then S i else i) d
               (nth j' (snd st) None).

(** The index at which the pair [d] is open when the loop reaches the
    index [i]: the last token before [i] that sets or clears the marker of
    the pair, if it sets it. *)
Fixpoint last_open (d : str * str) (line : list str) (i : nat)
  : option nat :=
  match i with
  | O => None
  | S m =>
      if opens_pair d (nth m line []) then Some m
      else if closes_pair d (nth m line []) then None
      else last_open d line m
  end.

(** What the token of index [i] adds to the entry [k] of the costs for
    the pair [d]: the penalty of a short delimited group on the indices
    from the opening token up to the one before [i]. *)
Definition short_penalty (d : str * str) (line : list str) (i k : nat) : Z :=
  if closes_pair d (nth i line [])
  then match last_open d line i with
       | Some o =>
           if (Z.of_nat o >=? Z.of_nat i - SHORT_DELIM)
              && (o <=? k)%nat && (k <? i)%nat
           then COST_SHORTDELIMITED else 0
       | None => 0
       end
  else 0.

(** What the token of index [i] adds to the entry [k] of the costs for
    its last character and for being a function word. *)
Definition lexical_adjust (line : list str) (i k : nat) : Z :=
  let token := nth i line [] in
  if (length token =? 0)%nat then 0
  else
    (if (k =? i)%nat
     then (if contains [last token SPACE] FULLSTOPS then COST_FULLSTOP else 0)
          + (if contains [last token SPACE] COMMAS then COST_COMMA else 0)
          + (if mem_str (lower token) FUNC_WORDS then - COST_FUNC else 0)
     else 0)
    + (if (k + 1 =? i)%nat && mem_str (lower token) FUNC_WORDS
       then COST_FUNC else 0).

Definition zsum (l : list Z) : Z := fold_right Z.add 0 l.

Definition token_adjust (line : list str) (k i : nat) : Z :=
  lexical_adjust line i k
  + zsum (map (fun d => short_penalty d line i k) DELIMS).

(** The entry [k] of the static costs in closed form: the sum, over the
    tokens, of what each adds to it. *)
Definition static_total (line : list str) (k : nat) : Z :=
  zsum (map (token_adjust line k) (seq 0 (length line))).

(** ** The tables of [segment] *)

Definition cle (a b : cost) : Prop := cltb b a = false.

Ltac cost_cases :=
  repeat match goal with
    | x : cost |- _ => destruct x
    end;
  unfold cle in *; simpl in *; try discriminate; try reflexivity;
  rewrite ?Z.ltb_lt, ?Z.ltb_ge in *; try lia.

(** The recurrence at position [j]: [dpback[j]] is the first index [b]
    below [j] that minimises [dpcost[i] + line_cost(line[i+1:j])], and
    [dpcost[j]] is that minimum plus [scosts[j-1]]. *)
Definition recurrence_at (line : list str) (scosts : list Z)
    (dpcost : list cost) (dpback : list Z) (j : nat) : Prop :=
  exists b c,
    nth j dpback 0 = Z.of_nat b /\ (b < j)%nat /\
    nth b dpcost Inf = Fin c /\
    nth j dpcost Inf =
      Fin (c + line_cost (slice (b + 1) j line) + nth (j - 1) scosts 0) /\
    forall i, (i < j)%nat ->
      exists ci,
        nth i dpcost Inf = Fin ci /\
        c + line_cost (slice (b + 1) j line)
          <= ci + line_cost (slice (i + 1) j line) /\
        ((i < b)%nat ->
         c + line_cost (slice (b + 1) j line)
           < ci + line_cost (slice (i + 1) j line)).

(** The tables after the iterations [1], ..., [m] of the outer loop. *)
Definition dp_inv (line : list str) (scosts : list Z) (m : nat)
    (st : dp_state) : Prop :=
  length (fst st) = length line /\
  length (snd st) = length line /\
  nth 0 (fst st) Inf = Fin 0 /\
  nth 0 (snd st) 0 = -1 /\
  (forall i, (i <= m)%nat -> exists c, nth i (fst st) Inf = Fin c) /\
  (forall j, (1 <= j <= m)%nat ->
             recurrence_at line scosts (fst st) (snd st) j).

(** The cursors visited by the reconstruction loop started at [c], in the
    order of the visits: each is the back pointer of the one before, and
    the last is [0], whose back pointer [-1] ends the loop. *)
Inductive back_chain (dpback : list Z) : nat -> list nat -> Prop :=
| back_chain_zero :
    nth 0 dpback 0 = -1 -> back_chain dpback 0 [0%nat]
| back_chain_step : forall c b cs,
    nth c dpback 0 = Z.of_nat b -> (b < c)%nat ->
    back_chain dpback b cs -> back_chain dpback c (c :: cs).

(** The slices [line[c:prev]] for the cursors [cs], [prev] being the
    cursor visited before, and [prevcursor] for the first. *)
Fixpoint pieces (line : list str) (cs : list nat) (prevcursor : nat)
  : list (list str) :=
  match cs with
  | [] => []
  | c :: cs' => slice c prevcursor line :: pieces line cs' c
  end.

(** The output line of a slice of tokens. *)
Definition emit (piece : list str) : str := join [SPACE] (noblank piece).

(** The reconstruction in the words of the specification: from the final
    position [j] back to [0], each segment is [tokens[backPointer[j]+1 : j]].
    The result lists the segments in the order of the visits. *)
Fixpoint claimed_walk (fuel : nat) (line : list str) (dpback : list Z)
    (j : nat) : list str :=
  match fuel, j with
  | O, _ | _, O => []
  | S fuel', S _ =>
      let b := Z.to_nat (nth j dpback 0) in
      emit (slice (b + 1) j line) :: claimed_walk fuel' line dpback b
  end.

(** ... read with the last position of the tables of the program as the
    final position, *)
Definition claimed_segment_last (line0 : list str) : list str :=
  let line := [] :: line0 in
  rev (claimed_walk (length line) line (snd (dp_tables line))
                    (length line - 1)).

(** ... and read with the recurrence run for every [j] from [1] to [n], on
    tables with the positions [0..n], and [n] as the final position. *)
Definition claimed_tables (line : list str) : dp_state :=
  fold_left (dp_step line (static_costs line))
            (seq 1 (length line)) (dp_init (length line + 1)).

Definition claimed_segment_full (line0 : list str) : list str :=
  let line := [] :: line0 in
  rev (claimed_walk (length line + 1) line (snd (claimed_tables line))
                    (length line)).

(** ** Lines and tokens *)

(** A partition of [tokens] into lines that all fit the hard limit. *)
Definition fits_hard_limit (tokens : list str) (lines : list (list str))
  : Prop :=
  concat lines = tokens /\
  Forall (fun l => l <> [] /\ n_chars l <= CHARS_MAX) lines.

(** [s.split(sep)] for a separator of one character *)
Fixpoint split_on (sep : ascii) (s : str) : list str :=
  match s with
  | [] => [[]]
  | c :: s' =>
      if Ascii.eqb c sep then [] :: split_on sep s'
      else match split_on sep s' with
           | t :: ts => (c :: t) :: ts
           | [] => [[c]]
           end
  end.

(** ** The cases of the Classifier *)

Inductive kind : Type := Indented | Blank | Comment | Command | Prose.

(** The branch that the loop of [paragraphs] takes for [line]. *)
Definition classify (line : str) : kind :=
  if RE_STARTSPACE line then Indented
  else if (length (strip line) =? 0)%nat then Blank
  else if RE_COMMENT (strip line) then Comment
  else if RE_SINGLECOMMAND (strip line) then Command
  else Prose.

(** [Span(current)] *)
Definition flush (current : list str) : Span.t str :=
  Span.of_parts current true allow allow.

(** The span that an exempt line is yielded as. *)
Definition exempt_span (line : str) : Span.t str :=
  match classify line with
  | Indented => Span.of_str (strip_nl line) false forbid forbid
  | Blank => Span.of_str [] false allow forbid
  | Comment => Span.of_str (strip line) false prefer forbid
  | _ => Span.of_str (strip line) false forbid forbid
  end.

(** The pipeline in the order in which the specification words its data
    flow: the Span Joiner on the spans of the Classifier, merging the raw
    contents by concatenation, then the Tokenizer on the merged spans. *)
Definition reflow_joiner_first (items : list str) : list str :=
  segment_spans
    (map Span.tokenize (join_spans_from (@app ascii) None (paragraphs items))).

(** A non-empty string without whitespace. *)
Definition token (t : str) : Prop :=
  t <> [] /\ Forall (fun c => isspace c = false) t.

(** The separator and the text that a prose line adds to [current]. *)
Definition prose_parts (hyphenated : bool) (line : str) : str * str :=
  if hyphenated && Ascii.eqb (last line SPACE) HYPHEN
  then ([], removelast line) else ([SPACE], line).

(** A prose line that does not end a span. *)
Definition soft_prose (hyphenated : bool) (line : str) : Prop :=
  classify line = Prose /\
  RE_ENDBREAK (snd (prose_parts hyphenated (strip line))) = false.

(** A prose line without a hyphen or a hard break at its end. *)
Definition plain (line : str) : Prop :=
  classify line = Prose /\
  Ascii.eqb (last (strip line) SPACE) HYPHEN = false /\
  RE_ENDBREAK (strip line) = false.

(** The two entries appended to [current] for a prose line. *)
Definition prose_entry (hyphenated : bool) (line : str) : list str :=
  [snd (prose_parts hyphenated (strip line));
   fst (prose_parts hyphenated (strip line))].

(** ** Lines read back *)








(** ** Further notions *)

(** No span of the list would be merged into the one before it: of two
    neighbours, the first forbids joining on its right or the second does
    not ask for it. *)
Inductive settled {C} : list (Span.t C) -> Prop :=
| settled_nil : settled []
| settled_one : forall p, settled [p]
| settled_cons : forall p q l,
    Span.join_right p = forbid \/ Span.join_left q <> prefer ->
    settled (q :: l) -> settled (p :: q :: l).

(** A way from position [c] down to position [0]: the positions of the
    line ends of a partition of the tokens before [c], last first. *)
Inductive descent : nat -> list nat -> Prop :=
| descent_zero : descent 0 [0%nat]
| descent_step : forall c b cs,
    (b < c)%nat -> descent b cs -> descent c (c :: cs).

(** The cost that the tables of [segment] charge for such a way: for each
    step from [b] up to [c], the line cost of [line[b+1:c]] and the static
    cost of the break at [c - 1]. *)
Fixpoint chain_cost (line : list str) (scosts : list Z) (cs : list nat)
  : Z :=
  match cs with
  | c :: ((b :: _) as rest) =>
      line_cost (slice (b + 1) c line) + nth (c - 1) scosts 0
      + chain_cost line scosts rest
  | _ => 0
  end.

(** The least value that the entry [k] of the costs can have when the
    loop of [static_costs] reaches the index [i]. *)
Definition cost_floor (i k : nat) : Z :=
  if (k + 1 <? i)%nat then -70
  else if (k + 1 =? i)%nat then -55 else 0.

(** The string does not end with a newline. *)
Definition no_final_newline (s : str) : Prop := last s SPACE <> NL.

(** A word: a token without a percent sign and without a backslash. *)
Definition wordlike (t : str) : Prop :=
  token t /\ ~ In PERCENT t /\ ~ In BACKSLASH t.

(** * Properties *)

(** ** Cost model: the line cost *)

(** C6. [line_cost] is [|n - 80| + 40] for [n] the length of the tokens
    joined by single spaces, plus 100 when [n] exceeds the hard limit 120,
    plus 5 when [n] exceeds the long threshold 115; a line shorter than the
    target width costs the linear deviation and the line weight only. *)
Theorem line_cost_formula :
  forall line : list str,
    n_chars line = Z.of_nat (length (join [SPACE] line)) /\
    line_cost line =
      Z.abs (n_chars line - 80) + 40
      + (if n_chars line >? 120 then 100 else 0)
      + (if n_chars line >? 115 then 5 else 0) /\
    (n_chars line < 80 -> line_cost line = (80 - n_chars line) + 40).
Proof.
  intros line. split; [reflexivity|].
  unfold line_cost, COST_LINE, COST_TOOLONG, COST_LONG, CHARS_OPT,
    CHARS_MAX, CHARS_LONG.
  split.
  - destruct (Z.gtb_spec (n_chars line) 120);
      destruct (Z.gtb_spec (n_chars line) 115); lia.
  - intros Hshort.
    destruct (Z.gtb_spec (n_chars line) 120);
      destruct (Z.gtb_spec (n_chars line) 115); lia.
Qed.

Lemma line_cost_formula_witness :
  n_chars [lit "so"; lit "short"] = 8 /\
  line_cost [lit "so"; lit "short"] = 112.
Proof.
  split; [reflexivity|].
  destruct (line_cost_formula [lit "so"; lit "short"]) as (_ & _ & Hshort).
  rewrite Hshort; [reflexivity | vm_compute; reflexivity].
Defined.

(** ** Classifier: the comment test precedes the single-command test *)





(** ** Stripping *)

Lemma dropwhile_app_stop :
  forall p a c b, p c = false ->
    dropwhile p (a ++ c :: b) = dropwhile p a ++ c :: b.
Proof.
  intros p a c b Hc. induction a as [|x a IH]; simpl.
  - rewrite Hc. reflexivity.
  - destruct (p x); [exact IH | reflexivity].
Qed.

Lemma dropwhile_all :
  forall p a, forallb p a = true -> dropwhile p a = [].
Proof.
  intros p a. induction a as [|x a IH]; simpl; [reflexivity|].
  intros H. apply andb_true_iff in H. destruct H as [Hx Ha].
  rewrite Hx. auto.
Qed.

Lemma forallb_rev :
  forall (p : ascii -> bool) a, forallb p (rev a) = forallb p a.
Proof.
  intros p a. induction a as [|x a IH]; simpl; [reflexivity|].
  rewrite forallb_app, IH. simpl. rewrite andb_true_r. apply andb_comm.
Qed.

(** Stripping on the right removes a run of stripped characters that
    follows a character that is kept. *)
Lemma rstrip_by_stop :
  forall p a c w, p c = false -> forallb p w = true ->
    rstrip_by p (a ++ c :: w) = a ++ [c].
Proof.
  intros p a c w Hc Hw. unfold rstrip_by.
  rewrite rev_app_distr. simpl. rewrite <- app_assoc. simpl.
  rewrite dropwhile_app_stop by exact Hc.
  rewrite dropwhile_all by (rewrite forallb_rev; exact Hw).
  simpl. rewrite rev_involutive. reflexivity.
Qed.

Lemma strip_by_stop :
  forall p a c w, p c = false -> forallb p w = true ->
    strip_by p (a ++ c :: w) = dropwhile p a ++ [c].
Proof.
  intros p a c w Hc Hw. unfold strip_by, lstrip_by.
  rewrite dropwhile_app_stop by exact Hc.
  apply rstrip_by_stop; assumption.
Qed.

(** ** Classifier and Span Joiner: join policies of reflow-eligible spans *)

Lemma at_dollar_space :
  forall t, at_dollar t = true -> forallb isspace t = true.
Proof.
  intros [|c [|c' t]] H; simpl in *; try discriminate; [reflexivity|].
  apply Ascii.eqb_eq in H. subst c. reflexivity.
Qed.

Lemma RE_ENDBREAK_split :
  forall line, RE_ENDBREAK line = true ->
    exists pre t, line = pre ++ BACKSLASH :: BACKSLASH :: t /\
                  at_dollar t = true.
Proof.
  induction line as [|c r IH]; simpl; intros H; [discriminate|].
  apply orb_true_iff in H. destruct H as [H|H].
  - apply andb_true_iff in H. destruct H as [Hc H].
    destruct r as [|c' r']; [discriminate|].
    apply andb_true_iff in H. destruct H as [Hc' Ht].
    apply Ascii.eqb_eq in Hc. apply Ascii.eqb_eq in Hc'. subst c c'.
    exists [], r'. split; [reflexivity | exact Ht].
  - destruct (IH H) as (pre & t & -> & Ht).
    exists (c :: pre), t. split; [reflexivity | exact Ht].
Qed.

Lemma join_nil_app :
  forall a b, join [] (a ++ b) = join [] a ++ join [] b.
Proof.
  induction a as [|x a IH]; intros b; simpl; [reflexivity|].
  destruct a as [|y a].
  - simpl. destruct b as [|z b]; simpl; [rewrite app_nil_r|]; reflexivity.
  - change ((y :: a) ++ b) with (y :: a ++ b).
    change (y :: a ++ b) with ((y :: a) ++ b).
    rewrite IH. simpl app at 1. rewrite <- app_assoc. reflexivity.
Qed.

Lemma flush_break_content :
  forall current line sep,
    RE_ENDBREAK line = true -> forallb isspace sep = true ->
    ends_with_break (strip (join [] (current ++ [line; sep]))).
Proof.
  intros current line sep Hb Hsep.
  destruct (RE_ENDBREAK_split _ Hb) as (pre & t & -> & Ht).
  rewrite join_nil_app. simpl join at 2.
  assert (Hw : forallb isspace (t ++ sep) = true).
  { rewrite forallb_app, (at_dollar_space _ Ht), Hsep. reflexivity. }
  replace (join [] current ++ (pre ++ BACKSLASH :: BACKSLASH :: t) ++ sep)
    with ((join [] current ++ pre ++ [BACKSLASH]) ++ BACKSLASH :: (t ++ sep)).
  2:{ simpl. rewrite <- !app_assoc. simpl. reflexivity. }
  unfold strip. rewrite strip_by_stop; [|reflexivity|exact Hw].
  rewrite app_assoc, dropwhile_app_stop by reflexivity.
  exists (dropwhile isspace (join [] current ++ pre)).
  rewrite <- app_assoc. reflexivity.
Qed.

Lemma paragraphs_step_policy :
  forall hyphenated current line s,
    In s (fst (paragraphs_step hyphenated current line)) ->
    eligible_policy ends_with_break s.
Proof.
  intros hyphenated current line s. unfold paragraphs_step.
  destruct (RE_STARTSPACE line).
  { simpl. intros [<-|[<-|[]]] Hseg; simpl in *;
      [split; [reflexivity | left; reflexivity] | discriminate]. }
  destruct (length (strip line) =? 0)%nat.
  { simpl. intros [<-|[<-|[]]] Hseg; simpl in *;
      [split; [reflexivity | left; reflexivity] | discriminate]. }
  destruct (RE_COMMENT (strip line)).
  { simpl. intros [<-|[<-|[]]] Hseg; simpl in *;
      [split; [reflexivity | left; reflexivity] | discriminate]. }
  destruct (RE_SINGLECOMMAND (strip line)).
  { simpl. intros [<-|[<-|[]]] Hseg; simpl in *;
      [split; [reflexivity | left; reflexivity] | discriminate]. }
  destruct (hyphenated && Ascii.eqb (last (strip line) SPACE) HYPHEN).
  - destruct (RE_ENDBREAK (removelast (strip line))) eqn:Hb;
      simpl; [|intros []].
    intros [<-|[]] _. simpl. split; [reflexivity|]. right.
    split; [reflexivity|]. apply flush_break_content; [exact Hb|reflexivity].
  - destruct (RE_ENDBREAK (strip line)) eqn:Hb; simpl; [|intros []].
    intros [<-|[]] _. simpl. split; [reflexivity|]. right.
    split; [reflexivity|]. apply flush_break_content; [exact Hb|reflexivity].
Qed.

Lemma paragraphs_from_policy :
  forall hyphenated lines current s,
    In s (paragraphs_from hyphenated current lines) ->
    eligible_policy ends_with_break s.
Proof.
  induction lines as [|line lines IH]; intros current s; simpl.
  - intros [<-|[]] _. simpl. split; [reflexivity | left; reflexivity].
  - destruct (paragraphs_step hyphenated current line) as [out current']
      eqn:Hstep.
    intros Hin. apply in_app_iff in Hin. destruct Hin as [Hin|Hin].
    + apply (paragraphs_step_policy hyphenated current line).
      rewrite Hstep. exact Hin.
    + exact (IH _ _ Hin).
Qed.

Lemma join_spans_from_policy :
  forall C (ext : C -> C -> C) spans previous s,
    In s (join_spans_from ext previous spans) ->
    exists s0, (previous = Some s0 \/ In s0 spans) /\ same_policy s s0.
Proof.
  intros C ext. unfold same_policy.
  induction spans as [|span spans IH]; intros previous s; simpl.
  - destruct previous as [p|]; [|intros []].
    intros [<-|[]]. exists p. auto.
  - destruct previous as [p|].
    + destruct (policy_eqb (Span.join_right p) forbid).
      { intros [<-|Hin]; [exists p; auto|].
        destruct (IH _ _ Hin) as (s0 & [H0|H0] & Hs); exists s0.
        - injection H0 as <-. auto.
        - auto. }
      destruct (policy_eqb (Span.join_left span) prefer).
      { intros Hin. destruct (IH _ _ Hin) as (s0 & [H0|H0] & Hs).
        - injection H0 as <-. exists p. simpl in Hs. auto.
        - exists s0. auto. }
      intros [<-|Hin]; [exists p; auto|].
      destruct (IH _ _ Hin) as (s0 & [H0|H0] & Hs); exists s0.
      * injection H0 as <-. auto.
      * auto.
    + intros Hin. destruct (IH _ _ Hin) as (s0 & [H0|H0] & Hs); exists s0.
      * injection H0 as <-. auto.
      * auto.
Qed.

Lemma tokenize_policy :
  forall s, same_policy (Span.tokenize s) s.
Proof.
  intros s. unfold same_policy, Span.tokenize.
  destruct (Span.segment s) eqn:Hs; simpl; auto.
Qed.

(** C4, as the code has it.  A reflow-eligible span yielded by the
    Classifier has [join_left = allow], and its [join_right] is [allow], or
    [forbid] on the span closed by a hard line break, whose content ends
    with two backslashes; a reflow-eligible span yielded by the Span Joiner
    has [join_left = allow] and [join_right] one of [allow], [forbid]. *)
Theorem eligible_span_policy :
  forall lines : list str,
    (forall s, In s (paragraphs lines) ->
               eligible_policy ends_with_break s) /\
    (forall s, In s (join_spans (map Span.tokenize (paragraphs lines))) ->
               eligible_policy (fun _ => True) s).
Proof.
  intros lines. split.
  - intros s Hin. exact (paragraphs_from_policy _ _ _ _ Hin).
  - intros s Hin Hseg.
    destruct (join_spans_from_policy _ _ _ _ _ Hin)
      as (s0 & [H0|H0] & Hs & Hl & Hr); [discriminate|].
    apply in_map_iff in H0. destruct H0 as (r & <- & Hr0).
    destruct (tokenize_policy r) as (Hs' & Hl' & Hr').
    assert (Hp := paragraphs_from_policy _ _ _ _ Hr0).
    rewrite Hs, Hs' in Hseg. destruct (Hp Hseg) as (Hjl & Hjr).
    rewrite Hl, Hl', Hr, Hr'. split; [exact Hjl|].
    destruct Hjr as [Hjr|[Hjr _]]; auto.
Qed.

Lemma eligible_span_policy_witness :
  Span.join_left (Span.of_parts [lit "a\\"; [SPACE]] true allow forbid) = allow
  /\ (Span.join_right (Span.of_parts [lit "a\\"; [SPACE]] true allow forbid)
      = allow \/
      (Span.join_right (Span.of_parts [lit "a\\"; [SPACE]] true allow forbid)
       = forbid /\
       ends_with_break
         (Span.content
            (Span.of_parts [lit "a\\"; [SPACE]] true allow forbid)))).
Proof.
  destruct (eligible_span_policy [lit "a\\" ++ [NL]; lit "b"]) as [Hc _].
  apply (Hc (Span.of_parts [lit "a\\"; [SPACE]] true allow forbid)).
  - left. reflexivity.
  - reflexivity.
Defined.

(** C4, as stated, fails: the span closed by a hard line break is
    reflow-eligible and has [join_right = forbid]. *)
Lemma eligible_span_policy_counterexample :
  ~ (forall lines s,
        In s (paragraphs lines) -> Span.segment s = true ->
        Span.join_left s = allow /\ Span.join_right s = allow).
Proof.
  intros H.
  destruct (H [lit "a\\" ++ [NL]]
              (Span.make (lit "a\\") true allow forbid)) as [_ Hr].
  - left. reflexivity.
  - reflexivity.
  - discriminate Hr.
Qed.

(** ** Arrays *)

Lemma upd_length : forall A i (x : A) l, length (upd i x l) = length l.
Proof.
  intros A i x l. revert i.
  induction l as [|y l IH]; intros [|i]; simpl; auto.
Qed.

Lemma nth_upd_same :
  forall A i (x d : A) l, (i < length l)%nat -> nth i (upd i x l) d = x.
Proof.
  intros A i x d l. revert i.
  induction l as [|y l IH]; intros [|i] H; simpl in *; try lia; auto.
  apply IH. lia.
Qed.

Lemma nth_upd_other :
  forall A i k (x d : A) l, i <> k -> nth k (upd i x l) d = nth k l d.
Proof.
  intros A i k x d l. revert i k.
  induction l as [|y l IH]; intros [|i] [|k] H; simpl; auto; try lia.
Qed.

Lemma add_at_length : forall i d l, length (add_at i d l) = length l.
Proof.
  intros i d l. revert i.
  induction l as [|y l IH]; intros [|i]; simpl; auto.
Qed.

Lemma add_range_length :
  forall a b d l, length (add_range a b d l) = length l.
Proof.
  intros a b d l. unfold add_range, slice.
  rewrite !length_app, length_map, !length_firstn, !length_skipn. lia.
Qed.

Lemma nth_add_range :
  forall a b d l k, (a <= b)%nat -> (b <= length l)%nat ->
    nth k (add_range a b d l) 0 =
    nth k l 0 + (if (a <=? k)%nat && (k <? b)%nat then d else 0).
Proof.
  intros a b d l k Hab Hb. unfold add_range, slice.
  rewrite Nat.max_r by exact Hab.
  destruct (Nat.leb_spec a k) as [Hak|Hak]; simpl.
  - rewrite app_nth2 by (rewrite length_firstn; lia).
    rewrite length_firstn, Nat.min_l by lia.
    destruct (Nat.ltb_spec k b) as [Hkb|Hkb].
    + rewrite app_nth1
        by (rewrite length_map, length_firstn, length_skipn; lia).
      rewrite (nth_indep _ 0 ((fun c => c + d) 0))
        by (rewrite length_map, length_firstn, length_skipn; lia).
      rewrite (map_nth (fun c => c + d)). rewrite nth_firstn.
      destruct (Nat.ltb_spec (k - a) (b - a)); [|lia].
      rewrite nth_skipn. replace (a + (k - a))%nat with k by lia.
      reflexivity.
    + rewrite app_nth2
        by (rewrite length_map, length_firstn, length_skipn; lia).
      rewrite length_map, length_firstn, length_skipn.
      rewrite Nat.min_l by lia. rewrite nth_skipn.
      replace (b + (k - a - (b - a)))%nat with k by lia. lia.
  - rewrite app_nth1 by (rewrite length_firstn; lia).
    rewrite nth_firstn. destruct (Nat.ltb_spec k a); [lia|lia].
Qed.

Lemma nth_add_at :
  forall i d l k,
    nth k (add_at i d l) 0 =
    if (k =? i)%nat && (k <? length l)%nat then nth k l 0 + d
    else nth k l 0.
Proof.
  intros i d l. revert i.
  induction l as [|c l IH]; intros i k.
  - destruct i; simpl; rewrite andb_false_r; destruct k; reflexivity.
  - destruct i as [|i]; destruct k as [|k]; simpl; try reflexivity.
    apply IH.
Qed.

(** ** Cost model: short delimited groups *)

Lemma firstn_S_nth :
  forall A (l : list A) i d, (i < length l)%nat ->
    firstn (S i) l = firstn i l ++ [nth i l d].
Proof.
  intros A l. induction l as [|x l IH]; intros [|i] d H; simpl in *;
    try lia; [reflexivity|].
  f_equal. apply IH. lia.
Qed.

Lemma enumerate_length : forall A (l : list A), length (enumerate l) = length l.
Proof.
  intros A l. unfold enumerate.
  rewrite length_combine, length_seq. lia.
Qed.

Lemma nth_enumerate :
  forall A (l : list A) i d, (i < length l)%nat ->
    nth i (enumerate l) (O, d) = (i, nth i l d).
Proof.
  intros A l i d H. unfold enumerate.
  rewrite combine_nth by (rewrite length_seq; reflexivity).
  rewrite seq_nth by exact H. reflexivity.
Qed.

Lemma static_prefix_S :
  forall line i, (i < length line)%nat ->
    static_prefix line (S i) =
    token_step (static_prefix line i) (i, nth i line []).
Proof.
  intros line i H. unfold static_prefix.
  rewrite (firstn_S_nth _ (enumerate line) i (O, []))
    by (rewrite enumerate_length; exact H).
  rewrite fold_left_app, nth_enumerate by exact H. reflexivity.
Qed.

Lemma static_prefix_all :
  forall line, static_prefix line (length line) = static_state line.
Proof.
  intros line. unfold static_prefix, static_state.
  rewrite <- (enumerate_length _ line) at 1. rewrite firstn_all. reflexivity.
Qed.

Lemma state_at_S :
  forall line i j d, nth_error DELIMS j = Some d ->
    state_at line i (S j) =
    delim_step i (nth i line []) (state_at line i j) (j, d).
Proof.
  intros line i j d Hd. unfold state_at.
  assert (Hj : (j < length DELIMS)%nat)
    by (apply nth_error_Some; rewrite Hd; discriminate).
  rewrite (firstn_S_nth _ (enumerate DELIMS) j (O, ([], [])))
    by (rewrite enumerate_length; exact Hj).
  rewrite fold_left_app, nth_enumerate by exact Hj.
  rewrite (nth_error_nth _ _ _ Hd). reflexivity.
Qed.

Lemma state_at_all :
  forall line i, (i < length line)%nat -> nth i line [] <> [] ->
    state_at line i (length DELIMS) = static_prefix line (S i).
Proof.
  intros line i H Hne. rewrite static_prefix_S by exact H.
  assert (Hlen : (length (nth i line []) =? 0)%nat = false).
  { destruct (nth i line []); [contradiction | reflexivity]. }
  unfold state_at, token_step. rewrite Hlen.
  rewrite <- (enumerate_length _ DELIMS) at 1. rewrite firstn_all.
  reflexivity.
Qed.

Lemma delim_step_lengths :
  forall i token st jd,
    length (fst (delim_step i token st jd)) = length (fst st) /\
    length (snd (delim_step i token st jd)) = length (snd st).
Proof.
  intros i token [costs opens] [j d]. unfold delim_step.
  destruct (contains (fst d) token && negb (contains (snd d) token));
    destruct (contains (snd d) token); simpl;
    repeat match goal with
      | |- context [match ?x with Some _ => _ | None => _ end] =>
          destruct x
      | |- context [if ?b then _ else _] => destruct b
      end; simpl; rewrite ?add_range_length, ?upd_length; auto.
Qed.

Lemma delim_step_other :
  forall i token costs opens j d j', j' <> j ->
    nth j' (snd (delim_step i token (costs, opens) (j, d))) None =
    nth j' opens None.
Proof.
  intros i token costs opens j d j' Hne. unfold delim_step.
  destruct (contains (fst d) token && negb (contains (snd d) token));
    destruct (contains (snd d) token); simpl;
    repeat match goal with
      | |- context [match ?x with Some _ => _ | None => _ end] =>
          destruct x
      end; simpl; rewrite ?nth_upd_other by auto; auto.
Qed.

Lemma delim_step_marker :
  forall i token costs opens j d, (j < length opens)%nat ->
    nth j (snd (delim_step i token (costs, opens) (j, d))) None =
    if contains (fst d) token && negb (contains (snd d) token)
    then Some i
    else if contains (snd d) token then None else nth j opens None.
Proof.
  intros i token costs opens j d Hj. unfold delim_step.
  destruct (contains (snd d) token) eqn:Hc.
  - rewrite andb_false_r.
    destruct (nth j opens None) eqn:Hm; simpl.
    + apply nth_upd_same. exact Hj.
    + exact Hm.
  - rewrite andb_true_r.
    destruct (contains (fst d) token); simpl.
    + apply nth_upd_same. exact Hj.
    + reflexivity.
Qed.

Lemma marker_inv_opened :
  forall line i d, opens_pair d (nth i line []) = true ->
    marker_inv line (S i) d (Some i).
Proof.
  intros line i d Ho o. split.
  - intros [= <-]. split; [lia|]. split; [exact Ho|]. intros k Hk. lia.
  - intros (Hlt & _ & Hbetween).
    destruct (Nat.eq_dec o i) as [->|Hne]; [reflexivity|].
    destruct (Hbetween i) as [Hf _]; [lia|]. congruence.
Qed.

Lemma marker_inv_closed :
  forall line i d, closes_pair d (nth i line []) = true ->
    marker_inv line (S i) d None.
Proof.
  intros line i d Hc o. split; [discriminate|].
  intros (Hlt & Ho & Hbetween). exfalso.
  destruct (Nat.eq_dec o i) as [->|Hne].
  - unfold opens_pair, closes_pair in *.
    apply andb_true_iff in Hc. destruct Hc as [_ Hc].
    rewrite Hc, andb_false_r in Ho. discriminate.
  - destruct (Hbetween i) as [_ Hf]; [lia|]. congruence.
Qed.

Lemma marker_inv_kept :
  forall line i d m,
    opens_pair d (nth i line []) = false ->
    closes_pair d (nth i line []) = false ->
    marker_inv line i d m -> marker_inv line (S i) d m.
Proof.
  intros line i d m Ho Hc Hinv o. rewrite (Hinv o). split.
  - intros (Hlt & Hopen & Hbetween). split; [lia|]. split; [exact Hopen|].
    intros k Hk. destruct (Nat.eq_dec k i) as [->|Hne]; [auto|].
    apply Hbetween. lia.
  - intros (Hlt & Hopen & Hbetween).
    destruct (Nat.eq_dec o i) as [->|Hne]; [congruence|].
    split; [lia|]. split; [exact Hopen|]. intros k Hk. apply Hbetween. lia.
Qed.

Lemma lex_step_length :
  forall i token costs, length (lex_step i token costs) = length costs.
Proof.
  intros i token costs. unfold lex_step.
  repeat match goal with
    | |- context [if ?b then _ else _] => destruct b
    end; rewrite ?add_at_length; reflexivity.
Qed.

Lemma inner_inv_step :
  forall line i j d st,
    nth i line [] <> [] -> nth_error DELIMS j = Some d ->
    inner_inv line i j st ->
    inner_inv line i (S j) (delim_step i (nth i line []) st (j, d)).
Proof.
  intros line i j d [costs opens] Hne Hd (Hlc & Hlo & Hm).
  assert (Hj : (j < length DELIMS)%nat)
    by (apply nth_error_Some; rewrite Hd; discriminate).
  destruct (delim_step_lengths i (nth i line []) (costs, opens) (j, d))
    as [Hl1 Hl2].
  split; [rewrite Hl1; exact Hlc|]. split; [rewrite Hl2; exact Hlo|].
  intros j' d' Hd'.
  destruct (Nat.eq_dec j' j) as [->|Hjj].
  - rewrite Hd in Hd'. injection Hd' as <-.
    destruct (Nat.ltb_spec j (S j)) as [_|]; [|lia].
    rewrite delim_step_marker by (simpl in Hlo; rewrite Hlo; exact Hj).
    specialize (Hm j d Hd). rewrite Nat.ltb_irrefl in Hm.
    assert (Hpos : (0 <? length (nth i line []))%nat = true).
    { destruct (nth i line []); [contradiction | reflexivity]. }
    destruct (contains (fst d) (nth i line [])
              && negb (contains (snd d) (nth i line []))) eqn:Hopen.
    + apply marker_inv_opened. unfold opens_pair.
      rewrite Hpos, <- andb_assoc. exact Hopen.
    + destruct (contains (snd d) (nth i line [])) eqn:Hclose.
      * apply marker_inv_closed. unfold closes_pair.
        rewrite Hpos, Hclose. reflexivity.
      * apply marker_inv_kept; [| |exact Hm].
        -- unfold opens_pair. rewrite Hclose, <- andb_assoc, Hopen.
           apply andb_false_r.
        -- unfold closes_pair. rewrite Hclose. apply andb_false_r.
  - rewrite delim_step_other by exact Hjj.
    specialize (Hm j' d' Hd').
    destruct (Nat.ltb_spec j' j); destruct (Nat.ltb_spec j' (S j));
      try lia; exact Hm.
Qed.

Lemma state_at_inv :
  forall line i j,
    nth i line [] <> [] -> (j <= length DELIMS)%nat ->
    inner_inv line i 0 (static_prefix line i) ->
    inner_inv line i j (state_at line i j).
Proof.
  intros line i j Hne Hj (Hlc & Hlo & Hm).
  induction j as [|j IH].
  - unfold state_at. simpl. split; [|split]; simpl.
    + rewrite lex_step_length. exact Hlc.
    + exact Hlo.
    + exact Hm.
  - destruct (nth_error DELIMS j) as [d|] eqn:Hd.
    + rewrite (state_at_S _ _ _ _ Hd).
      apply inner_inv_step; [exact Hne | exact Hd | apply IH; lia].
    + apply nth_error_None in Hd. lia.
Qed.

Lemma static_prefix_inv :
  forall line i, (i <= length line)%nat ->
    inner_inv line i 0 (static_prefix line i).
Proof.
  intros line. induction i as [|i IH]; intros Hi.
  - unfold static_prefix, sc_init. simpl.
    split; [apply repeat_length|]. split; [reflexivity|].
    intros j' d Hd o.
    assert (Hn : nth j' [None; None; None; @None nat] None = None)
      by (destruct j' as [|[|[|[|[|?]]]]]; reflexivity).
    cbn [snd]. rewrite Hn. split; [discriminate|].
    intros (Hlt & _). simpl in Hlt. lia.
  - specialize (IH ltac:(lia)).
    destruct (list_eq_dec ascii_dec (nth i line []) []) as [He|Hne].
    + rewrite static_prefix_S by lia. unfold token_step. rewrite He.
      simpl. destruct IH as (Hlc & Hlo & Hm).
      split; [exact Hlc|]. split; [exact Hlo|].
      intros j' d Hd. specialize (Hm j' d Hd). simpl in *.
      apply marker_inv_kept; [| |exact Hm].
      * unfold opens_pair. rewrite He. reflexivity.
      * unfold closes_pair. rewrite He. reflexivity.
    + rewrite <- state_at_all by (try lia; exact Hne).
      destruct (state_at_inv line i (length DELIMS) Hne (le_n _) IH)
        as (Hlc & Hlo & Hm).
      split; [exact Hlc|]. split; [exact Hlo|].
      intros j' d Hd. specialize (Hm j' d Hd).
      assert (Hj : (j' < length DELIMS)%nat)
        by (apply nth_error_Some; rewrite Hd; discriminate).
      destruct (Nat.ltb_spec j' (length DELIMS)); [|lia].
      simpl. exact Hm.
Qed.

Lemma zsum_app : forall a b, zsum (a ++ b) = zsum a + zsum b.
Proof.
  intros a b. induction a as [|x a IH]; simpl; [reflexivity|].
  rewrite IH. lia.
Qed.

(** [last_open] computes [open_since]. *)
Lemma last_open_spec :
  forall d line i o, last_open d line i = Some o <-> open_since d line i o.
Proof.
  intros d line i. induction i as [|i IH]; intros o; simpl.
  - split; [discriminate|]. intros (Hlt & _). lia.
  - destruct (opens_pair d (nth i line [])) eqn:Ho.
    + apply (marker_inv_opened line i d Ho).
    + destruct (closes_pair d (nth i line [])) eqn:Hc.
      * apply (marker_inv_closed line i d Hc).
      * apply (marker_inv_kept line i d _ Ho Hc). exact (IH).
Qed.

(** The open marker of a pair, when the loop reaches the index [i], is
    [last_open]. *)
Lemma marker_is_last_open :
  forall line i d m, marker_inv line i d m -> m = last_open d line i.
Proof.
  intros line i d m Hm.
  destruct (last_open d line i) as [o|] eqn:Hl.
  - apply Hm. apply last_open_spec. exact Hl.
  - destruct m as [o|]; [|reflexivity].
    assert (H : last_open d line i = Some o)
      by (apply last_open_spec, Hm; reflexivity).
    congruence.
Qed.

(** What [lex_step] adds to the entry [k]. *)
Lemma lex_step_adds :
  forall line i costs k,
    (i < length costs)%nat -> nth i line [] <> [] ->
    nth k (lex_step i (nth i line []) costs) 0 =
    nth k costs 0 + lexical_adjust line i k.
Proof.
  intros line i costs k Hi Hne.
  unfold lexical_adjust, lex_step.
  assert (Hlen : (length (nth i line []) =? 0)%nat = false).
  { destruct (nth i line []); [contradiction | reflexivity]. }
  rewrite Hlen.
  set (token := nth i line []).
  set (c1 := if contains [last token SPACE] FULLSTOPS
             then add_at i COST_FULLSTOP costs else costs).
  set (c2 := if contains [last token SPACE] COMMAS
             then add_at i COST_COMMA c1 else c1).
  assert (H1 : nth k c1 0 = nth k costs 0
               + (if (k =? i)%nat
                  then (if contains [last token SPACE] FULLSTOPS
                        then COST_FULLSTOP else 0) else 0)
               /\ length c1 = length costs).
  { subst c1. destruct (contains [last token SPACE] FULLSTOPS).
    - rewrite nth_add_at, add_at_length. split; [|reflexivity].
      destruct (Nat.eqb_spec k i) as [->|]; simpl; [|lia].
      destruct (Nat.ltb_spec i (length costs)); lia.
    - split; [|reflexivity]. destruct (k =? i)%nat; lia. }
  destruct H1 as [H1 L1].
  assert (H2 : nth k c2 0 = nth k c1 0
               + (if (k =? i)%nat
                  then (if contains [last token SPACE] COMMAS
                        then COST_COMMA else 0) else 0)
               /\ length c2 = length costs).
  { subst c2. destruct (contains [last token SPACE] COMMAS).
    - rewrite nth_add_at, add_at_length. split; [|exact L1].
      destruct (Nat.eqb_spec k i) as [->|]; simpl; [|lia].
      destruct (Nat.ltb_spec i (length c1)); lia.
    - split; [|exact L1]. destruct (k =? i)%nat; lia. }
  destruct H2 as [H2 L2].
  destruct (mem_str (lower token) FUNC_WORDS).
  - rewrite andb_true_r.
    destruct (Nat.ltb_spec 0 i) as [Hpos|Hpos].
    + rewrite !nth_add_at, !add_at_length, H2, H1, L2.
      repeat match goal with
        | |- context [Nat.eqb ?a ?b] => destruct (Nat.eqb_spec a b)
        | |- context [Nat.ltb ?a ?b] => destruct (Nat.ltb_spec a b)
        end; cbn [andb]; lia.
    + rewrite nth_add_at, H2, H1, L2.
      repeat match goal with
        | |- context [Nat.eqb ?a ?b] => destruct (Nat.eqb_spec a b)
        | |- context [Nat.ltb ?a ?b] => destruct (Nat.ltb_spec a b)
        end; cbn [andb]; lia.
  - rewrite andb_false_r, H2, H1.
    destruct (k =? i)%nat; lia.
Qed.

(** What the iteration for the pair of index [j] adds to the entry [k]. *)
Lemma delim_step_adds :
  forall line i j d k,
    (i < length line)%nat -> nth i line [] <> [] ->
    nth_error DELIMS j = Some d ->
    nth k (fst (state_at line i (S j))) 0 =
    nth k (fst (state_at line i j)) 0 + short_penalty d line i k.
Proof.
  intros line i j d k Hi Hne Hd.
  assert (Hj : (j < length DELIMS)%nat)
    by (apply nth_error_Some; rewrite Hd; discriminate).
  destruct (state_at_inv line i j Hne ltac:(lia)
              (static_prefix_inv line i ltac:(lia))) as (Hlc & Hlo & Hm).
  specialize (Hm j d Hd). rewrite Nat.ltb_irrefl in Hm.
  apply marker_is_last_open in Hm.
  assert (Hpos : (0 <? length (nth i line []))%nat = true).
  { destruct (nth i line []); [contradiction | reflexivity]. }
  rewrite (state_at_S _ _ _ _ Hd).
  unfold short_penalty, closes_pair. rewrite Hpos, <- Hm. cbn [andb].
  destruct (state_at line i j) as [costs opens]. cbn [fst snd] in *.
  unfold delim_step.
  destruct (contains (snd d) (nth i line [])) eqn:Hc.
  - rewrite andb_false_r.
    destruct (nth j opens None) as [o|] eqn:Ho; cbn [fst]; [|lia].
    assert (Hlt : (o < i)%nat).
    { symmetry in Hm. apply last_open_spec in Hm. apply Hm. }
    destruct (Z.of_nat o >=? Z.of_nat i - SHORT_DELIM); cbn [andb]; [|lia].
    rewrite nth_add_range by lia. reflexivity.
  - destruct (contains (fst d) (nth i line []) && negb false); cbn [fst]; lia.
Qed.

(** The entry [k] when the loop over [DELIMS] reaches the pair of index
    [j]. *)
Lemma state_at_adds :
  forall line i j k,
    (i < length line)%nat -> nth i line [] <> [] ->
    (j <= length DELIMS)%nat ->
    nth k (fst (state_at line i j)) 0 =
    nth k (fst (static_prefix line i)) 0 + lexical_adjust line i k
    + zsum (map (fun d => short_penalty d line i k) (firstn j DELIMS)).
Proof.
  intros line i j k Hi Hne. induction j as [|j IH]; intros Hj.
  - unfold state_at. cbn [firstn fold_left fst map zsum fold_right].
    rewrite lex_step_adds; [lia| |exact Hne].
    destruct (static_prefix_inv line i ltac:(lia)) as (Hlc & _).
    rewrite Hlc. exact Hi.
  - destruct (nth_error DELIMS j) as [d|] eqn:Hd.
    + rewrite (delim_step_adds line i j d k Hi Hne Hd), IH by lia.
      rewrite (firstn_S_nth _ DELIMS j ([], [])) by lia.
      rewrite map_app, zsum_app. rewrite (nth_error_nth _ _ _ Hd).
      cbn [map zsum fold_right]. lia.
    + apply nth_error_None in Hd. lia.
Qed.

(** The entry [k] when the loop of [static_costs] reaches the index [i]. *)
Lemma static_prefix_total :
  forall line i k, (i <= length line)%nat ->
    nth k (fst (static_prefix line i)) 0 =
    zsum (map (token_adjust line k) (seq 0 i)).
Proof.
  intros line i k. induction i as [|i IH]; intros Hi.
  - unfold static_prefix, sc_init. cbn [firstn fold_left fst seq map zsum fold_right].
    destruct (nth_in_or_default k (repeat 0 (length line)) 0) as [Hin|He];
      [apply repeat_spec in Hin; exact Hin | exact He].
  - rewrite seq_S, map_app, zsum_app, <- IH by lia.
    cbn [Nat.add map zsum fold_right]. unfold token_adjust.
    destruct (list_eq_dec ascii_dec (nth i line []) []) as [He|Hne].
    + rewrite static_prefix_S by lia. unfold token_step. rewrite He.
      cbn [length Nat.eqb].
      unfold lexical_adjust, short_penalty, closes_pair. rewrite He.
      cbn. lia.
    + rewrite <- state_at_all by (try lia; exact Hne).
      rewrite state_at_adds by (try lia; exact Hne).
      rewrite firstn_all. lia.
Qed.

(** The entry [k] of the array that [static_costs] returns. *)
Lemma static_costs_total :
  forall line k, nth k (static_costs line) 0 = static_total line k.
Proof.
  intros line k. unfold static_costs, static_total.
  rewrite <- static_prefix_all. apply static_prefix_total. lia.
Qed.

(** C7. When the token at index [i] contains the closing marker of a pair
    of [DELIMS] that is open since index [o] (the last earlier token with
    the opening but not the closing marker, no closing marker in between)
    and [o >= i - SHORT_DELIM], the iteration of [static_costs] for that
    token and pair adds [COST_SHORTDELIMITED = 80] to the break costs of
    the indices [o], ..., [i - 1], leaves the others, and clears the open
    marker of the pair.  The array that [static_costs] returns holds, at
    every index, the sum of what the tokens add to it, with this penalty
    among the terms, and the markers of the final state are the ones that
    the last opening or closing token of each pair leaves. *)
Theorem short_delimiter_penalty :
  forall line i j d o,
    (i < length line)%nat ->
    nth_error DELIMS j = Some d ->
    closes_pair d (nth i line []) = true ->
    open_since d line i o ->
    Z.of_nat o >= Z.of_nat i - SHORT_DELIM ->
    nth j (snd (state_at line i j)) None = Some o /\
    state_at line i (S j) =
      (add_range o i COST_SHORTDELIMITED (fst (state_at line i j)),
       upd j None (snd (state_at line i j))) /\
    (forall k,
        nth k (fst (state_at line i (S j))) 0 =
        nth k (fst (state_at line i j)) 0
        + (if (o <=? k)%nat && (k <? i)%nat then 80 else 0)) /\
    nth j (snd (state_at line i (S j))) None = None /\
    (forall k, nth k (static_costs line) 0 = static_total line k) /\
    (forall k, short_penalty d line i k =
               if (o <=? k)%nat && (k <? i)%nat then 80 else 0) /\
    last_open d line (S i) = None /\
    nth j (snd (static_state line)) None = last_open d line (length line).
Proof.
  intros line i j d o Hi Hd Hclose Hopen Hshort.
  assert (Hne : nth i line [] <> []).
  { unfold closes_pair in Hclose. destruct (nth i line []);
      [discriminate | discriminate]. }
  assert (Hj : (j < length DELIMS)%nat)
    by (apply nth_error_Some; rewrite Hd; discriminate).
  destruct (state_at_inv line i j Hne ltac:(lia)
              (static_prefix_inv line i ltac:(lia))) as (Hlc & Hlo & Hm).
  specialize (Hm j d Hd). rewrite Nat.ltb_irrefl in Hm.
  assert (Hmark : nth j (snd (state_at line i j)) None = Some o)
    by (apply Hm; exact Hopen).
  assert (Hcl : contains (snd d) (nth i line []) = true).
  { unfold closes_pair in Hclose. apply andb_true_iff in Hclose. tauto. }
  assert (Hstep : state_at line i (S j) =
      (add_range o i COST_SHORTDELIMITED (fst (state_at line i j)),
       upd j None (snd (state_at line i j)))).
  { rewrite (state_at_S _ _ _ _ Hd).
    destruct (state_at line i j) as [costs opens]. simpl in *.
    rewrite Hcl, andb_false_r, Hmark.
    destruct (Z.geb_spec (Z.of_nat o) (Z.of_nat i - SHORT_DELIM));
      [reflexivity | lia]. }
  assert (Hlast : last_open d line i = Some o)
    by (apply last_open_spec; exact Hopen).
  split; [exact Hmark|]. split; [exact Hstep|]. rewrite Hstep. simpl.
  split; [|split; [|split; [|split; [|split]]]].
  - intros k. destruct Hopen as (Hlt & _).
    apply nth_add_range; lia.
  - apply nth_upd_same. lia.
  - apply static_costs_total.
  - intros k. unfold short_penalty. rewrite Hclose, Hlast.
    destruct (Z.geb_spec (Z.of_nat o) (Z.of_nat i - SHORT_DELIM)); [|lia].
    reflexivity.
  - cbn [last_open]. rewrite Hclose.
    destruct (opens_pair d (nth i line [])) eqn:Ho; [|reflexivity].
    unfold opens_pair in Ho. rewrite Hcl, andb_false_r in Ho.
    discriminate.
  - rewrite <- static_prefix_all.
    destruct (static_prefix_inv line (length line) (le_n _))
      as (_ & _ & Hfin).
    apply marker_is_last_open. exact (Hfin j d Hd).
Qed.

Lemma short_delimiter_penalty_witness :
  nth 2 (static_costs [[]; lit "see"; lit "(as"; lit "x)"]) 0 = 80 /\
  short_penalty (lit "(", lit ")") [[]; lit "see"; lit "(as"; lit "x)"] 3 2
  = 80 /\
  nth 2 (fst (state_at [[]; lit "see"; lit "(as"; lit "x)"] 3 2)) 0
  = nth 2 (fst (state_at [[]; lit "see"; lit "(as"; lit "x)"] 3 1)) 0 + 80
  /\ nth 1 (snd (state_at [[]; lit "see"; lit "(as"; lit "x)"] 3 2)) None
     = None
  /\ nth 1 (snd (static_state [[]; lit "see"; lit "(as"; lit "x)"])) None
     = None.
Proof.
  destruct (short_delimiter_penalty
              [[]; lit "see"; lit "(as"; lit "x)"] 3 1
              (lit "(", lit ")") 2)
    as (_ & _ & Hk & Hm & Htot & Hpen & _ & Hfin).
  - simpl. lia.
  - reflexivity.
  - reflexivity.
  - split; [lia|]. split; [reflexivity|]. intros k Hk. lia.
  - vm_compute. discriminate.
  - split; [rewrite Htot; reflexivity|].
    split; [exact (Hpen 2%nat)|].
    split; [exact (Hk 2%nat)|].
    split; [exact Hm|].
    rewrite Hfin. reflexivity.
Defined.

(** ** Segmenter: the dynamic program *)

Lemma cltb_cle_trans :
  forall a b c, cltb a b = true -> cle b c -> cltb a c = true.
Proof. intros a b c Hab Hbc. cost_cases. Qed.

Lemma cle_trans : forall a b c, cle a b -> cle b c -> cle a c.
Proof. intros a b c Hab Hbc. cost_cases. Qed.

Lemma cle_refl : forall a, cle a a.
Proof. intros a. cost_cases. Qed.

(** [argmin_from] continues a scan of [pre ++ l] that has read [pre] and
    found its first minimum at [best]. *)
Lemma argmin_from_spec :
  forall l pre best i bv,
    i = length pre -> bv = nth best pre Inf ->
    (best < length pre)%nat ->
    (forall k, (k < length pre)%nat -> cle bv (nth k pre Inf)) ->
    (forall k, (k < best)%nat -> cltb bv (nth k pre Inf) = true) ->
    let r := argmin_from l i best bv in
    (r < length (pre ++ l))%nat /\
    (forall k, (k < length (pre ++ l))%nat ->
               cle (nth r (pre ++ l) Inf) (nth k (pre ++ l) Inf)) /\
    (forall k, (k < r)%nat ->
               cltb (nth r (pre ++ l) Inf) (nth k (pre ++ l) Inf) = true).
Proof.
  induction l as [|x l IH]; intros pre best i bv Hi Hbv Hb Hmin Hfirst;
    simpl.
  - rewrite app_nil_r, <- Hbv. auto.
  - replace (pre ++ x :: l) with ((pre ++ [x]) ++ l)
      by (rewrite <- app_assoc; reflexivity).
    assert (Hlen : length (pre ++ [x]) = S (length pre))
      by (rewrite length_app; simpl; lia).
    assert (Hx : nth (length pre) (pre ++ [x]) Inf = x)
      by (rewrite app_nth2, Nat.sub_diag by lia; reflexivity).
    destruct (cltb x bv) eqn:Hlt.
    + apply IH.
      * lia.
      * subst i. symmetry. exact Hx.
      * lia.
      * intros k Hk.
        destruct (Nat.eq_dec k (length pre)) as [->|Hne].
        -- rewrite Hx. apply cle_refl.
        -- rewrite app_nth1 by lia.
           specialize (Hmin k ltac:(lia)).
           revert Hlt Hmin. generalize (nth k pre Inf). intros y.
           clear. intros. cost_cases.
      * intros k Hk. subst i. rewrite app_nth1 by lia.
        apply (cltb_cle_trans _ _ _ Hlt). apply Hmin. lia.
    + apply IH.
      * lia.
      * rewrite app_nth1 by lia. exact Hbv.
      * lia.
      * intros k Hk.
        destruct (Nat.eq_dec k (length pre)) as [->|Hne].
        -- rewrite Hx. exact Hlt.
        -- rewrite app_nth1 by lia. apply Hmin. lia.
      * intros k Hk. rewrite app_nth1 by lia. apply Hfirst, Hk.
Qed.

(** [np.argmin] returns the first index that holds the minimum. *)
Lemma argmin_spec :
  forall l, l <> [] ->
    (argmin l < length l)%nat /\
    (forall k, (k < length l)%nat ->
               cle (nth (argmin l) l Inf) (nth k l Inf)) /\
    (forall k, (k < argmin l)%nat ->
               cltb (nth (argmin l) l Inf) (nth k l Inf) = true).
Proof.
  intros [|x l] Hne; [contradiction|]. unfold argmin.
  apply (argmin_from_spec l [x] 0%nat); try reflexivity.
  - simpl. lia.
  - intros [|k] Hk; simpl in *; [apply cle_refl | lia].
  - intros k Hk. lia.
Qed.

Lemma fold_upd_seq :
  forall (f : nat -> cost) k a cur,
    (a + k <= length cur)%nat ->
    let r := fold_left (fun cur i => upd i (f i) cur) (seq a k) cur in
    length r = length cur /\
    forall i, nth i r Inf =
              if (a <=? i)%nat && (i <? a + k)%nat then f i
              else nth i cur Inf.
Proof.
  intros f. induction k as [|k IH]; intros a cur Hlen; simpl.
  - split; [reflexivity|]. intros i.
    destruct (Nat.leb_spec a i); destruct (Nat.ltb_spec i (a + 0));
      try reflexivity; lia.
  - destruct (IH (S a) (upd a (f a) cur)) as [Hl Hn].
    { rewrite upd_length. lia. }
    split; [rewrite Hl; apply upd_length|].
    intros i. rewrite Hn.
    destruct (Nat.eq_dec a i) as [->|Hne].
    + destruct (Nat.leb_spec (S i) i); [lia|]. simpl.
      destruct (Nat.leb_spec i i); [|lia].
      destruct (Nat.ltb_spec i (i + S k)); [|lia]. simpl.
      apply nth_upd_same. lia.
    + rewrite nth_upd_other by exact Hne.
      destruct (Nat.leb_spec (S a) i); destruct (Nat.ltb_spec i (S a + k));
        destruct (Nat.leb_spec a i); destruct (Nat.ltb_spec i (a + S k));
        simpl; try lia; reflexivity.
Qed.

(** The array [current] when the inner loop for [j] ends. *)
Lemma fill_current_spec :
  forall line dpcost j,
    (j <= length line)%nat ->
    let cur := fill_current line dpcost j (repeat Inf (length line)) in
    length cur = length line /\
    forall i, nth i cur Inf =
              if (i <? j)%nat
              then cadd (nth i dpcost Inf)
                        (Fin (line_cost (slice (i + 1) j line)))
              else Inf.
Proof.
  intros line dpcost j Hj cur.
  destruct (fold_upd_seq
              (fun i => cadd (nth i dpcost Inf)
                             (Fin (line_cost (slice (i + 1) j line))))
              j 0%nat (repeat Inf (length line))) as [Hl Hn].
  { rewrite repeat_length. lia. }
  split.
  - unfold cur, fill_current. rewrite Hl. apply repeat_length.
  - intros i. unfold cur, fill_current. rewrite Hn. simpl.
    destruct (Nat.ltb_spec i j); [reflexivity|].
    apply nth_repeat.
Qed.

Lemma recurrence_at_upd :
  forall line scosts dpcost dpback j k x y,
    (j < k)%nat ->
    recurrence_at line scosts dpcost dpback j ->
    recurrence_at line scosts (upd k x dpcost) (upd k y dpback) j.
Proof.
  intros line scosts dpcost dpback j k x y Hjk
    (b & c & Hb & Hlt & Hc & Hj & Hmin).
  exists b, c. rewrite !nth_upd_other by lia.
  repeat split; auto.
  intros i Hi. destruct (Hmin i Hi) as (ci & Hci & Hle).
  exists ci. rewrite nth_upd_other by lia. auto.
Qed.

Lemma dp_step_inv :
  forall line scosts m st,
    (S m < length line)%nat ->
    dp_inv line scosts m st ->
    dp_inv line scosts (S m) (dp_step line scosts st (S m)).
Proof.
  intros line scosts m [dpcost dpback] Hm
    (Hlc & Hlb & Hc0 & Hb0 & Hfin & Hrec).
  simpl in Hlc, Hlb, Hc0, Hb0, Hfin, Hrec.
  unfold dp_step.
  set (current := fill_current line dpcost (S m)
                    (repeat Inf (length line))).
  destruct (fill_current_spec line dpcost (S m) ltac:(lia))
    as [Hlcur Hcur].
  fold current in Hlcur, Hcur.
  assert (Hne : current <> []).
  { intros He. rewrite He in Hlcur. simpl in Hlcur. lia. }
  destruct (argmin_spec current Hne) as (Hbest & Hmin & Hfirst).
  set (best := argmin current) in *.
  assert (Hcur_fin : forall i, (i < S m)%nat ->
            exists ci, nth i dpcost Inf = Fin ci /\
              nth i current Inf =
                Fin (ci + line_cost (slice (i + 1) (S m) line))).
  { intros i Hi. destruct (Hfin i ltac:(lia)) as (ci & Hci).
    exists ci. split; [exact Hci|]. rewrite Hcur.
    destruct (Nat.ltb_spec i (S m)); [|lia]. rewrite Hci. reflexivity. }
  assert (Hbm : (best < S m)%nat).
  { destruct (Nat.lt_ge_cases best (S m)) as [|Hge]; [assumption|].
    exfalso. destruct (Hcur_fin 0%nat ltac:(lia)) as (c0 & _ & H0).
    specialize (Hmin 0%nat ltac:(lia)). rewrite H0, Hcur in Hmin.
    destruct (Nat.ltb_spec best (S m)); [lia|]. discriminate Hmin. }
  destruct (Hcur_fin best Hbm) as (c & Hcb & Hcurb).
  rewrite Hcurb. cbn [cadd]. unfold dp_inv. cbn [fst snd].
  split; [rewrite upd_length; exact Hlc|].
  split; [rewrite upd_length; exact Hlb|].
  split; [rewrite nth_upd_other by lia; exact Hc0|].
  split; [rewrite nth_upd_other by lia; exact Hb0|].
  split.
  - intros i Hi. destruct (Nat.eq_dec i (S m)) as [->|Hne'].
    + rewrite nth_upd_same by lia. eauto.
    + rewrite nth_upd_other by lia. apply Hfin. lia.
  - intros j Hj. destruct (Nat.eq_dec j (S m)) as [->|Hne'].
    + exists best, c.
      rewrite !nth_upd_same by lia. rewrite nth_upd_other by lia.
      repeat split; auto.
      intros i Hi. destruct (Hcur_fin i Hi) as (ci & Hci & Hcuri).
      exists ci. rewrite nth_upd_other by lia.
      split; [exact Hci|].
      specialize (Hmin i ltac:(lia)). rewrite Hcurb, Hcuri in Hmin.
      unfold cle in Hmin. simpl in Hmin. apply Z.ltb_ge in Hmin.
      split; [exact Hmin|].
      intros Hib. specialize (Hfirst i Hib).
      rewrite Hcurb, Hcuri in Hfirst. simpl in Hfirst.
      apply Z.ltb_lt in Hfirst. exact Hfirst.
    + apply recurrence_at_upd; [lia|]. apply Hrec. lia.
Qed.

Lemma dp_init_inv :
  forall line scosts, (1 <= length line)%nat ->
    dp_inv line scosts 0 (dp_init (length line)).
Proof.
  intros line scosts Hn. unfold dp_inv, dp_init. cbn [fst snd].
  rewrite !upd_length, !repeat_length.
  rewrite !nth_upd_same by (rewrite repeat_length; lia).
  repeat split; auto.
  - intros i Hi. replace i with 0%nat by lia.
    rewrite nth_upd_same by (rewrite repeat_length; lia). eauto.
  - intros j Hj. lia.
Qed.

Lemma dp_fold_inv :
  forall line scosts k, (k < length line)%nat ->
    dp_inv line scosts k
      (fold_left (dp_step line scosts) (seq 1 k) (dp_init (length line))).
Proof.
  intros line scosts. induction k as [|k IH]; intros Hk.
  - apply dp_init_inv. lia.
  - rewrite seq_S, fold_left_app. simpl.
    apply dp_step_inv; [lia|]. apply IH. lia.
Qed.

Lemma dp_tables_inv :
  forall line, (1 <= length line)%nat ->
    dp_inv line (static_costs line) (length line - 1) (dp_tables line).
Proof.
  intros line Hn. unfold dp_tables. apply dp_fold_inv. lia.
Qed.

(** ** Segmenter: the reconstruction *)

Lemma back_chain_exists :
  forall line scosts st,
    dp_inv line scosts (length line - 1) st ->
    forall c, (c < length line)%nat -> exists cs, back_chain (snd st) c cs.
Proof.
  intros line scosts [dpcost dpback] (_ & _ & _ & Hb0 & _ & Hrec).
  simpl in *. induction c as [c IH] using lt_wf_ind. intros Hc.
  destruct c as [|c].
  - exists [0%nat]. constructor. exact Hb0.
  - destruct (Hrec (S c) ltac:(lia)) as (b & _ & Hb & Hlt & _).
    destruct (IH b Hlt ltac:(lia)) as (cs & Hcs).
    exists (S c :: cs). econstructor; eauto.
Qed.

Lemma walk_chain :
  forall line dpback c cs,
    back_chain dpback c cs ->
    forall fuel prevcursor out,
      (c + 2 <= fuel)%nat ->
      walk fuel line dpback (Z.of_nat c) (Z.of_nat prevcursor) out =
      Some (out ++ map emit (pieces line cs prevcursor)).
Proof.
  intros line dpback c cs Hchain.
  induction Hchain as [H0|c b cs Hb Hlt Hchain IH];
    intros fuel prevcursor out Hfuel.
  - destruct fuel as [|[|fuel]]; try lia. simpl.
    rewrite H0. simpl. rewrite Nat2Z.id. reflexivity.
  - destruct fuel as [|fuel]; [lia|].
    cbn [walk]. destruct (Z.gtb_spec (Z.of_nat c) (-1)); [|lia].
    rewrite !Nat2Z.id, Hb.
    rewrite IH by lia. rewrite <- app_assoc. reflexivity.
Qed.

Lemma last_as_nth :
  forall A (l : list A) d, last l d = nth (length l - 1) l d.
Proof.
  intros A l d. induction l as [|x l IH]; [reflexivity|].
  destruct l as [|y l]; [reflexivity|].
  change (last (x :: y :: l) d) with (last (y :: l) d). rewrite IH.
  simpl. rewrite Nat.sub_0_r. reflexivity.
Qed.

(** The shape of the result of [segment]: nothing for an empty token list;
    otherwise the reversed list of the lines [emit (line[c:prev])] for the
    cursors visited from [dpback[-1]] down to [0], the first [prev] being
    [n_tokens]. *)
Lemma segment_structure :
  forall line0,
    let line := [] :: line0 in
    let dpback := snd (dp_tables line) in
    segment_opt line0 = Some (segment line0) /\
    (line0 = [] -> segment line0 = []) /\
    (line0 <> [] ->
     exists cs,
       (Z.to_nat (last dpback 0%Z) < length line - 1)%nat /\
       back_chain dpback (Z.to_nat (last dpback 0)) cs /\
       segment line0 = rev (map emit (pieces line cs (length line)))).
Proof.
  intros line0 line dpback.
  destruct line0 as [|t line0].
  - split; [reflexivity|]. split; [reflexivity|]. intros H. contradiction.
  - assert (Hinv := dp_tables_inv line ltac:(simpl; lia)).
    assert (Hinv' := Hinv).
    destruct Hinv' as (_ & Hlb & _ & _ & _ & Hrec).
    fold dpback in Hlb, Hrec.
    destruct (Hrec (length line - 1)%nat ltac:(simpl; lia))
      as (b & _ & Hb & Hlt & _).
    assert (Hlast : last dpback 0 = Z.of_nat b).
    { rewrite last_as_nth, Hlb. exact Hb. }
    destruct (back_chain_exists _ _ _ Hinv b ltac:(lia)) as (cs & Hcs).
    fold dpback in Hcs.
    assert (Hopt : segment_opt (t :: line0) =
                   Some (rev (map emit (pieces line cs (length line))))).
    { unfold segment_opt. fold line. fold dpback. rewrite Hlast.
      rewrite (walk_chain line dpback b cs Hcs) by lia.
      reflexivity. }
    assert (Hseg : segment (t :: line0) =
                   rev (map emit (pieces line cs (length line)))).
    { unfold segment. rewrite Hopt. reflexivity. }
    split; [rewrite Hopt, Hseg; reflexivity|].
    split; [discriminate|]. intros _.
    exists cs. rewrite Hlast, Nat2Z.id. auto.
Qed.

(** X17. The tables and the reconstruction as the program runs them.
    With the sentinel prepended and [n] the length of the resulting list:
    [dpcost[0] = 0]; for every [j] with [1 <= j < n], [dpcost[j]] is the
    minimum over [i < j] of [dpcost[i] + line_cost(line[i+1:j])] plus
    [static_costs(line)[j-1]], and [dpback[j]] is the lowest minimising
    [i]; the reconstruction always ends, starts at the cursor
    [dpback[n-1]] with [n] as previous cursor, emits for each cursor
    [line[cursor:prevcursor]] (blank tokens filtered, joined by single
    spaces) and follows [dpback], and the lines come out in the reverse
    order of the visits. *)
Theorem segment_dynamic_program :
  forall line0,
    let line := [] :: line0 in
    let n := length line in
    let dpcost := fst (dp_tables line) in
    let dpback := snd (dp_tables line) in
    nth 0 dpcost Inf = Fin 0 /\
    (forall j, (1 <= j < n)%nat ->
               recurrence_at line (static_costs line) dpcost dpback j) /\
    segment_opt line0 = Some (segment line0) /\
    (line0 = [] -> segment line0 = []) /\
    (line0 <> [] ->
     exists cs,
       last dpback 0 = nth (n - 1) dpback 0 /\
       back_chain dpback (Z.to_nat (last dpback 0)) cs /\
       segment line0 = rev (map emit (pieces line cs n))).
Proof.
  intros line0 line n dpcost dpback.
  destruct (dp_tables_inv line ltac:(simpl; lia))
    as (_ & Hlb & Hc0 & _ & _ & Hrec).
  destruct (segment_structure line0) as (Hopt & Hnil & Hcons).
  split; [exact Hc0|].
  split; [intros j Hj; apply Hrec; unfold n in Hj; lia|].
  split; [exact Hopt|]. split; [exact Hnil|].
  intros Hne. destruct (Hcons Hne) as (cs & _ & Hchain & Hseg).
  exists cs. split; [|split; assumption].
  unfold dpback, n. rewrite last_as_nth, Hlb. reflexivity.
Qed.

Lemma segment_dynamic_program_witness :
  exists cs,
    back_chain (snd (dp_tables [[]; lit "a"; lit "b"]))
               (Z.to_nat (last (snd (dp_tables [[]; lit "a"; lit "b"])) 0))
               cs /\
    segment [lit "a"; lit "b"] =
      rev (map emit (pieces [[]; lit "a"; lit "b"] cs 3)).
Proof.
  destruct (segment_dynamic_program [lit "a"; lit "b"])
    as (_ & _ & _ & _ & Hcons).
  destruct (Hcons ltac:(discriminate)) as (cs & _ & Hchain & Hseg).
  exists cs. split; [exact Hchain | exact Hseg].
Defined.

(** C1 fails on the code.  On the span of two tokens of 61 characters the
    tables are [dpcost = [0; 120; 59]] and [dpback = [-1; 0; 0]], and the
    program emits the one line [line[0:3]] of 123 characters.  The
    recurrence prices the slices [line[i+1:j]] for [i < j < 3], and the
    line emitted is none of them: the reconstruction takes
    [line[cursor:prevcursor]] from [dpback[n-1]] with [n] as previous
    cursor, where the claim has the segments [tokens[backPointer[j]+1 : j]]
    that the costs were computed for.  Those segments are other lines, for
    either reading of the final position: [line[1:2]], respectively
    [line[1:1]] and [line[2:3]]. *)
Theorem segment_emits_unscored_slice :
  dp_tables [[]; repeat "a"%char 61; repeat "b"%char 61] =
    ([Fin 0; Fin 120; Fin 59], [-1; 0; 0]) /\
  segment [repeat "a"%char 61; repeat "b"%char 61] =
    [emit (slice 0 3 [[]; repeat "a"%char 61; repeat "b"%char 61])] /\
  (forall i j, (i < j < 3)%nat ->
     slice (i + 1) j [[]; repeat "a"%char 61; repeat "b"%char 61]
     <> slice 0 3 [[]; repeat "a"%char 61; repeat "b"%char 61]) /\
  segment [repeat "a"%char 61; repeat "b"%char 61]
    <> claimed_segment_last [repeat "a"%char 61; repeat "b"%char 61] /\
  segment [repeat "a"%char 61; repeat "b"%char 61]
    <> claimed_segment_full [repeat "a"%char 61; repeat "b"%char 61].
Proof.
  split; [vm_compute; reflexivity|].
  split; [vm_compute; reflexivity|].
  split.
  - intros i j Hij.
    destruct i as [|[|i]]; destruct j as [|[|[|j]]]; try lia;
      vm_compute; discriminate.
  - split; vm_compute; discriminate.
Qed.

(** ** Segmenter: the hard limit *)

(** C2 fails on the code.  Two tokens of 61 characters fit the hard limit
    on a line each, and [segment] puts both on one line of 123 characters:
    the line costs are taken on [line[i+1:j]] while the lines emitted are
    [line[cursor:prevcursor]], and the last position of the tables is
    [n_tokens - 1], so the last line always holds the last two entries of
    [line]. *)
Theorem segment_exceeds_hard_limit :
  fits_hard_limit [repeat "a"%char 61; repeat "b"%char 61]
                  [[repeat "a"%char 61]; [repeat "b"%char 61]] /\
  segment [repeat "a"%char 61; repeat "b"%char 61] =
    [repeat "a"%char 61 ++ [SPACE] ++ repeat "b"%char 61] /\
  Forall (fun l => Z.of_nat (length l) = 123)
         (segment [repeat "a"%char 61; repeat "b"%char 61]).
Proof.
  split; [|split].
  - split; [reflexivity|].
    repeat constructor; try discriminate; vm_compute; discriminate.
  - vm_compute. reflexivity.
  - vm_compute. repeat constructor.
Qed.

(** ** Segmenter: token preservation *)

Lemma split_on_free :
  forall sep t, ~ In sep t -> split_on sep t = [t].
Proof.
  intros sep t. induction t as [|c t IH]; intros Hf; [reflexivity|].
  simpl. destruct (Ascii.eqb_spec c sep) as [->|Hne].
  - exfalso. apply Hf. left. reflexivity.
  - rewrite IH; [reflexivity|]. intros Hin. apply Hf. right. exact Hin.
Qed.

Lemma split_on_app :
  forall sep t s, ~ In sep t ->
    split_on sep (t ++ sep :: s) = t :: split_on sep s.
Proof.
  intros sep t s. induction t as [|c t IH]; intros Hf; simpl.
  - rewrite Ascii.eqb_refl. reflexivity.
  - destruct (Ascii.eqb_spec c sep) as [->|Hne].
    + exfalso. apply Hf. left. reflexivity.
    + rewrite IH; [reflexivity|]. intros Hin. apply Hf. right. exact Hin.
Qed.

Lemma split_on_join :
  forall sep toks, toks <> [] -> Forall (fun t => ~ In sep t) toks ->
    split_on sep (join [sep] toks) = toks.
Proof.
  intros sep toks. induction toks as [|t toks IH]; intros Hne Hf;
    [contradiction|].
  inversion Hf as [|? ? Ht Hts]; subst.
  destruct toks as [|t' toks].
  - simpl. apply split_on_free. exact Ht.
  - change (join [sep] (t :: t' :: toks))
      with (t ++ sep :: join [sep] (t' :: toks)).
    rewrite split_on_app by exact Ht.
    rewrite IH; [reflexivity | discriminate | exact Hts].
Qed.

Lemma noblank_idem : forall l, noblank (noblank l) = noblank l.
Proof.
  intros l. unfold noblank. induction l as [|x l IH]; [reflexivity|].
  simpl. destruct (0 <? length x)%nat eqn:Hx; simpl; rewrite ?Hx, IH;
    reflexivity.
Qed.

Lemma noblank_split_emit :
  forall g, Forall (fun t => ~ In SPACE t) g ->
    noblank (split_on SPACE (emit g)) = noblank g.
Proof.
  intros g Hf. unfold emit.
  destruct (noblank g) as [|t ts] eqn:Hg; [reflexivity|].
  rewrite split_on_join.
  - rewrite <- Hg. apply noblank_idem.
  - discriminate.
  - rewrite <- Hg. unfold noblank. apply Forall_forall. intros x Hx.
    apply filter_In in Hx. destruct Hx as [Hx _].
    rewrite Forall_forall in Hf. apply Hf, Hx.
Qed.

Lemma firstn_slice :
  forall A (l : list A) a b, (a <= b)%nat ->
    firstn a l ++ slice a b l = firstn b l.
Proof.
  intros A l a b Hab. unfold slice.
  rewrite <- (firstn_skipn a (firstn b l)).
  rewrite firstn_firstn, Nat.min_l by exact Hab.
  rewrite skipn_firstn_comm. reflexivity.
Qed.

Lemma pieces_concat :
  forall line dpback c cs,
    back_chain dpback c cs ->
    forall prevcursor, (c <= prevcursor)%nat ->
      concat (rev (pieces line cs prevcursor)) = firstn prevcursor line.
Proof.
  intros line dpback c cs Hchain.
  induction Hchain as [H0|c b cs Hb Hlt Hchain IH]; intros prevcursor Hle.
  - simpl. unfold slice. rewrite Nat.sub_0_r. apply app_nil_r.
  - simpl. rewrite concat_app, IH by lia. simpl. rewrite app_nil_r.
    apply firstn_slice. exact Hle.
Qed.

(** The lines of [segment] are the emissions of consecutive groups of the
    tokens, in order. *)
Lemma segment_groups :
  forall line0,
    exists groups,
      segment line0 = map emit groups /\
      concat groups = match line0 with [] => [] | _ => [] :: line0 end.
Proof.
  intros line0. destruct (segment_structure line0) as (_ & Hnil & Hcons).
  destruct line0 as [|t line0].
  - exists []. rewrite Hnil by reflexivity. auto.
  - destruct (Hcons ltac:(discriminate)) as (cs & Hlt & Hchain & Hseg).
    exists (rev (pieces ([] :: t :: line0) cs (length ([] :: t :: line0)))).
    split.
    + rewrite Hseg, map_rev. reflexivity.
    + rewrite (pieces_concat _ _ _ _ Hchain) by lia.
      apply firstn_all.
Qed.

(** C3, as the code has it.  The output lines of [segment] are the
    space-joins of consecutive groups whose non-blank tokens, concatenated,
    are the non-blank tokens of the input, in order; and when no input
    token contains a space, the non-blank tokens obtained by splitting the
    output lines on spaces are the non-blank input tokens. *)
Theorem segment_preserves_tokens :
  forall tokens,
    (exists groups,
        segment tokens = map emit groups /\
        concat (map noblank groups) = noblank tokens) /\
    (Forall (fun t => ~ In SPACE t) tokens ->
     flat_map (fun l => noblank (split_on SPACE l)) (segment tokens)
     = noblank tokens).
Proof.
  intros tokens. destruct (segment_groups tokens) as (groups & Hseg & Hcat).
  assert (Hnb : concat (map noblank groups) = noblank tokens).
  { unfold noblank. rewrite concat_filter_map. fold (noblank (concat groups)).
    rewrite Hcat. destruct tokens; reflexivity. }
  split; [exists groups; auto|].
  intros Hfree. rewrite Hseg, flat_map_concat_map, map_map, <- Hnb.
  f_equal. apply map_ext_in. intros g Hg. apply noblank_split_emit.
  apply Forall_forall. intros t Ht.
  assert (Hin : In t (concat groups)).
  { apply in_concat. exists g. auto. }
  rewrite Hcat in Hin. destruct tokens as [|t0 tokens]; [contradiction|].
  destruct Hin as [<-|Hin]; [intros []|].
  rewrite Forall_forall in Hfree. apply Hfree, Hin.
Qed.

Lemma segment_preserves_tokens_witness :
  flat_map (fun l => noblank (split_on SPACE l))
           (segment [lit "no"; lit "token"; lit "lost."])
  = noblank [lit "no"; lit "token"; lit "lost."].
Proof.
  destruct (segment_preserves_tokens [lit "no"; lit "token"; lit "lost."])
    as [_ H].
  apply H. repeat constructor; vm_compute; intuition discriminate.
Defined.

(** C3, as stated, fails on a span that the pipeline builds: a comment
    line merged into the preceding prose is one token with spaces in it. *)
Lemma segment_preserves_tokens_counterexample :
  In (Span.make [lit "hello"; lit "% c d"] true allow allow)
     (join_spans (map Span.tokenize
                      (paragraphs [lit "hello" ++ [NL];
                                   lit "% c d" ++ [NL]]))) /\
  flat_map (fun l => noblank (split_on SPACE l))
           (segment [lit "hello"; lit "% c d"])
  <> noblank [lit "hello"; lit "% c d"].
Proof.
  split.
  - vm_compute. left. reflexivity.
  - vm_compute. discriminate.
Qed.

(** ** Classifier: the case of a line *)

Lemma paragraphs_step_exempt :
  forall hyphenated current line,
    classify line <> Prose ->
    paragraphs_step hyphenated current line =
      ([flush current; exempt_span line], []).
Proof.
  intros hyphenated current line. unfold classify, exempt_span, classify,
    paragraphs_step.
  destruct (RE_STARTSPACE line); [reflexivity|].
  destruct (length (strip line) =? 0)%nat; [reflexivity|].
  destruct (RE_COMMENT (strip line)); [reflexivity|].
  destruct (RE_SINGLECOMMAND (strip line)); [reflexivity|].
  intros H. contradiction.
Qed.

Lemma paragraphs_step_prose :
  forall hyphenated current line s,
    classify line = Prose ->
    In s (fst (paragraphs_step hyphenated current line)) ->
    Span.join_left s = allow.
Proof.
  intros hyphenated current line s. unfold classify, paragraphs_step.
  destruct (RE_STARTSPACE line); [discriminate|].
  destruct (length (strip line) =? 0)%nat; [discriminate|].
  destruct (RE_COMMENT (strip line)); [discriminate|].
  destruct (RE_SINGLECOMMAND (strip line)); [discriminate|].
  intros _.
  destruct (hyphenated && Ascii.eqb (last (strip line) SPACE) HYPHEN).
  - destruct (RE_ENDBREAK (removelast (strip line))); simpl;
      [intros [<-|[]]; reflexivity | intros []].
  - destruct (RE_ENDBREAK (strip line)); simpl;
      [intros [<-|[]]; reflexivity | intros []].
Qed.

Lemma paragraphs_from_prefer :
  forall hyphenated lines current s,
    In s (paragraphs_from hyphenated current lines) ->
    Span.join_left s = prefer ->
    exists line, In line lines /\ classify line = Comment.
Proof.
  induction lines as [|line lines IH]; intros current s; simpl.
  - intros [<-|[]]. discriminate.
  - destruct (paragraphs_step hyphenated current line) as [out current']
      eqn:Hstep.
    intros Hin Hp. apply in_app_iff in Hin. destruct Hin as [Hin|Hin].
    + exists line. split; [left; reflexivity|].
      destruct (classify line) eqn:Hk; try reflexivity; exfalso.
      1,2,3:
        rewrite paragraphs_step_exempt in Hstep by (rewrite Hk; discriminate);
        injection Hstep as <- <-; unfold exempt_span in Hin; rewrite Hk in Hin;
        destruct Hin as [<-|[<-|[]]]; discriminate.
      assert (Ha := paragraphs_step_prose hyphenated current line s Hk).
      rewrite Hstep in Ha. rewrite (Ha Hin) in Hp. discriminate.
    + destruct (IH _ _ Hin Hp) as (l & Hl & Hc).
      exists l. split; [right; exact Hl | exact Hc].
Qed.

(** ** Pipeline: the order of Tokenizer and Span Joiner *)

Lemma join_spans_from_no_prefer :
  forall C (ext : C -> C -> C) spans previous,
    (forall s, In s spans -> Span.join_left s <> prefer) ->
    join_spans_from ext previous spans =
    match previous with Some p => [p] | None => [] end ++ spans.
Proof.
  intros C ext. induction spans as [|span spans IH]; intros previous Hnp.
  - simpl. rewrite app_nil_r. reflexivity.
  - assert (Hspan : policy_eqb (Span.join_left span) prefer = false).
    { specialize (Hnp span (or_introl eq_refl)).
      destruct (Span.join_left span); try reflexivity. contradiction. }
    assert (IH' := fun p => IH p (fun s H => Hnp s (or_intror H))).
    simpl. destruct previous as [p|].
    + rewrite Hspan, (IH' (Some span)).
      destruct (policy_eqb (Span.join_right p) forbid); reflexivity.
    + rewrite (IH' (Some span)). reflexivity.
Qed.

(** C5, as the code has it.  The pipeline is the Classifier, then the
    Tokenizer on every span, then the Span Joiner merging token lists, then
    [segment_spans]; it yields what the joiner-first order yields on every
    input without a comment-bearing line. *)
Theorem reflow_tokenizes_before_joining :
  forall items,
    reflow items =
      segment_spans
        (join_spans_from (@app str) None
           (map Span.tokenize (paragraphs_from true [] items))) /\
    ((forall line, In line items -> classify line <> Comment) ->
     reflow items = reflow_joiner_first items).
Proof.
  intros items. split; [reflexivity|].
  intros Hnc.
  assert (Hnp : forall s, In s (paragraphs items) ->
                          Span.join_left s <> prefer).
  { intros s Hin Hp.
    destruct (paragraphs_from_prefer _ _ _ _ Hin Hp) as (l & Hl & Hc).
    exact (Hnc l Hl Hc). }
  unfold reflow, reflow_joiner_first, join_spans.
  rewrite !join_spans_from_no_prefer; [reflexivity | exact Hnp|].
  intros s Hin. apply in_map_iff in Hin. destruct Hin as (r & <- & Hr).
  destruct (tokenize_policy r) as (_ & -> & _). apply Hnp, Hr.
Qed.

Lemma reflow_tokenizes_before_joining_witness :
  reflow [lit "one" ++ [NL]; lit "two" ++ [NL]] =
  reflow_joiner_first [lit "one" ++ [NL]; lit "two" ++ [NL]].
Proof.
  destruct (reflow_tokenizes_before_joining
              [lit "one" ++ [NL]; lit "two" ++ [NL]]) as [_ H].
  apply H. intros line [<-|[<-|[]]]; vm_compute; discriminate.
Defined.

(** C5, as stated, fails: a comment line merged into prose is one token
    after it in the program, and is glued to the last word and split on
    its spaces in the joiner-first order. *)
Lemma reflow_tokenizes_before_joining_counterexample :
  reflow [lit "hello" ++ [NL]; lit "% c d" ++ [NL]]
  <> reflow_joiner_first [lit "hello" ++ [NL]; lit "% c d" ++ [NL]].
Proof.
  vm_compute. discriminate.
Qed.

(** ** Tokenizer: [split] *)

Lemma split_go_app_space :
  forall a acc w b, isspace w = true ->
    split_go acc (a ++ w :: b) = split_go acc a ++ split b.
Proof.
  induction a as [|c a IH]; intros acc w b Hw; simpl.
  - rewrite Hw. destruct acc; reflexivity.
  - destruct (isspace c).
    + destruct acc; rewrite IH by exact Hw; reflexivity.
    + apply IH. exact Hw.
Qed.

Lemma split_go_spaces :
  forall w acc, forallb isspace w = true ->
    split_go acc w = split_go acc [].
Proof.
  induction w as [|c w IH]; intros acc Hw; [reflexivity|].
  simpl in Hw. apply andb_true_iff in Hw. destruct Hw as [Hc Hw].
  simpl. rewrite Hc. destruct acc; rewrite IH by exact Hw; reflexivity.
Qed.

Lemma split_go_app_spaces :
  forall a acc w, forallb isspace w = true ->
    split_go acc (a ++ w) = split_go acc a.
Proof.
  induction a as [|c a IH]; intros acc w Hw; simpl.
  - apply split_go_spaces. exact Hw.
  - destruct (isspace c).
    + destruct acc; rewrite IH by exact Hw; reflexivity.
    + apply IH. exact Hw.
Qed.

Lemma split_go_token :
  forall t acc, Forall (fun c => isspace c = false) t ->
    acc ++ t <> [] -> split_go acc t = [rev acc ++ t].
Proof.
  induction t as [|c t IH]; intros acc Hf Hne.
  - rewrite app_nil_r in *. simpl. destruct acc; [contradiction|reflexivity].
  - inversion Hf as [|? ? Hc Ht]; subst. simpl. rewrite Hc.
    rewrite IH by (try exact Ht; discriminate).
    simpl. rewrite <- app_assoc. reflexivity.
Qed.

Lemma split_token : forall t, token t -> split t = [t].
Proof.
  intros t [Hne Hf]. unfold split. rewrite split_go_token; auto.
Qed.

Lemma split_join :
  forall toks, Forall token toks -> split (join [SPACE] toks) = toks.
Proof.
  induction toks as [|t toks IH]; intros Hf; [reflexivity|].
  inversion Hf as [|? ? Ht Hts]; subst.
  destruct toks as [|t' toks].
  - simpl. apply split_token. exact Ht.
  - change (join [SPACE] (t :: t' :: toks))
      with (t ++ SPACE :: join [SPACE] (t' :: toks)).
    unfold split. rewrite split_go_app_space by reflexivity.
    fold (split t). rewrite split_token by exact Ht.
    rewrite IH by exact Hts. reflexivity.
Qed.

Lemma split_go_tokens :
  forall s acc, Forall (fun c => isspace c = false) acc ->
    Forall token (split_go acc s).
Proof.
  induction s as [|c s IH]; intros acc Hacc; simpl.
  - destruct acc as [|a acc]; constructor; [|constructor].
    split.
    + intros He. apply (f_equal (@length ascii)) in He.
      rewrite length_rev in He. discriminate.
    + apply Forall_rev. exact Hacc.
  - destruct (isspace c) eqn:Hc.
    + destruct acc as [|a acc]; [apply IH; constructor|].
      constructor; [|apply IH; constructor].
      split.
      * intros He. apply (f_equal (@length ascii)) in He.
        rewrite length_rev in He. discriminate.
      * apply Forall_rev. exact Hacc.
    + apply IH. constructor; assumption.
Qed.

(** The tokens of [split] are non-empty and free of whitespace. *)
Lemma split_tokens : forall s, Forall token (split s).
Proof. intros s. apply split_go_tokens. constructor. Qed.


Lemma dropwhile_decompose :
  forall p s, exists w, s = w ++ dropwhile p s /\ forallb p w = true.
Proof.
  intros p s. induction s as [|c s IH].
  - exists []. split; reflexivity.
  - simpl. destruct (p c) eqn:Hc.
    + destruct IH as (w & Hs & Hw). exists (c :: w). split.
      * simpl. rewrite <- Hs. reflexivity.
      * simpl. rewrite Hc. exact Hw.
    + exists []. split; reflexivity.
Qed.

Lemma rstrip_by_decompose :
  forall p s, exists w, s = rstrip_by p s ++ w /\ forallb p w = true.
Proof.
  intros p s. unfold rstrip_by.
  destruct (dropwhile_decompose p (rev s)) as (w & Hs & Hw).
  exists (rev w). split.
  - rewrite <- rev_app_distr, <- Hs, rev_involutive. reflexivity.
  - rewrite forallb_rev. exact Hw.
Qed.

Lemma split_dropwhile :
  forall s, split (dropwhile isspace s) = split s.
Proof.
  induction s as [|c s IH]; [reflexivity|].
  unfold split in *. simpl.
  destruct (isspace c) eqn:Hc; [exact IH|].
  simpl. rewrite Hc. reflexivity.
Qed.

(** [s.strip().split()] is [s.split()]. *)
Lemma split_strip : forall s, split (strip s) = split s.
Proof.
  intros s. unfold strip, strip_by, lstrip_by.
  rewrite <- (split_dropwhile s).
  destruct (rstrip_by_decompose isspace (dropwhile isspace s))
    as (w & Hs & Hw).
  rewrite Hs at 2. unfold split.
  rewrite split_go_app_spaces by exact Hw. reflexivity.
Qed.

(** ** Pipeline: exempt lines *)

Lemma paragraphs_from_exempt :
  forall hyphenated pre current line post,
    classify line <> Prose ->
    paragraphs_from hyphenated current (pre ++ line :: post) =
    paragraphs_from hyphenated current pre
    ++ exempt_span line :: paragraphs_from hyphenated [] post.
Proof.
  induction pre as [|a pre IH]; intros current line post Hk.
  - simpl. rewrite paragraphs_step_exempt by exact Hk. reflexivity.
  - simpl. destruct (paragraphs_step hyphenated current a) as [out cur'].
    rewrite IH by exact Hk. rewrite app_assoc. reflexivity.
Qed.

(** [paragraphs] ends with the flush of what it has accumulated. *)
Lemma paragraphs_from_last :
  forall hyphenated lines current,
    exists spans current',
      paragraphs_from hyphenated current lines = spans ++ [flush current'].
Proof.
  induction lines as [|a lines IH]; intros current.
  - exists [], current. reflexivity.
  - simpl. destruct (paragraphs_step hyphenated current a) as [out cur'].
    destruct (IH cur') as (spans & c & ->).
    exists (out ++ spans), c. rewrite app_assoc. reflexivity.
Qed.

(** ... and starts with a span whose [join_left] is [allow]. *)
Lemma paragraphs_from_head :
  forall hyphenated lines current,
    exists s spans,
      paragraphs_from hyphenated current lines = s :: spans /\
      Span.join_left s = allow.
Proof.
  induction lines as [|a lines IH]; intros current.
  - exists (flush current), []. split; reflexivity.
  - simpl. destruct (paragraphs_step hyphenated current a) as [out cur']
      eqn:Hstep.
    destruct out as [|s out].
    + destruct (IH cur') as (s & spans & -> & Hs). exists s, spans. auto.
    + exists s, (out ++ paragraphs_from hyphenated cur' lines).
      split; [reflexivity|].
      destruct (classify a) eqn:Hk.
      1,2,3,4:
        rewrite paragraphs_step_exempt in Hstep by (rewrite Hk; discriminate);
        injection Hstep as <- _ _; reflexivity.
      apply (paragraphs_step_prose hyphenated current a s Hk).
      rewrite Hstep. left. reflexivity.
Qed.

Lemma join_spans_from_app :
  forall C (ext : C -> C -> C) spans previous span rest,
    Span.join_left span <> prefer ->
    join_spans_from ext previous (spans ++ span :: rest) =
    join_spans_from ext previous spans
    ++ join_spans_from ext (Some span) rest.
Proof.
  intros C ext. induction spans as [|a spans IH];
    intros previous span rest Hnp.
  - assert (Hspan : policy_eqb (Span.join_left span) prefer = false).
    { destruct (Span.join_left span); try reflexivity. contradiction. }
    simpl. destruct previous as [p|]; [|reflexivity].
    rewrite Hspan.
    destruct (policy_eqb (Span.join_right p) forbid); reflexivity.
  - simpl. destruct previous as [p|].
    + destruct (policy_eqb (Span.join_right p) forbid);
        [rewrite IH by exact Hnp; reflexivity|].
      destruct (policy_eqb (Span.join_left a) prefer);
        rewrite IH by exact Hnp; reflexivity.
    + apply IH. exact Hnp.
Qed.

Lemma join_spans_from_forbid :
  forall C (ext : C -> C -> C) p rest,
    Span.join_right p = forbid ->
    join_spans_from ext (Some p) rest = p :: join_spans_from ext None rest.
Proof.
  intros C ext p [|b rest] Hf; simpl; [reflexivity|].
  rewrite Hf. reflexivity.
Qed.

Lemma join_spans_from_head :
  forall C (ext : C -> C -> C) p b rest,
    Span.join_left b <> prefer ->
    join_spans_from ext (Some p) (b :: rest) =
    p :: join_spans_from ext None (b :: rest).
Proof.
  intros C ext p b rest Hnp. simpl.
  destruct (policy_eqb (Span.join_right p) forbid); [reflexivity|].
  destruct (Span.join_left b); try reflexivity. contradiction.
Qed.

Lemma join_spans_from_merge :
  forall C (ext : C -> C -> C) p span rest,
    Span.join_right p <> forbid -> Span.join_left span = prefer ->
    join_spans_from ext (Some p) (span :: rest) =
    join_spans_from ext (Some (Span.extend ext p span)) rest.
Proof.
  intros C ext p span rest Hr Hl. simpl. rewrite Hl.
  destruct (Span.join_right p); try reflexivity. contradiction.
Qed.

Lemma segment_spans_app :
  forall a b, segment_spans (a ++ b) = segment_spans a ++ segment_spans b.
Proof. intros a b. unfold segment_spans. apply flat_map_app. Qed.

(** An exempt span that nothing merges with comes out as one line, between
    the output for the lines before it and the output for those after. *)
Lemma reflow_exempt_alone :
  forall pre line post,
    classify line <> Prose ->
    Span.join_left (exempt_span line) <> prefer ->
    Span.join_right (exempt_span line) = forbid ->
    Span.segment (exempt_span line) = false ->
    reflow (pre ++ line :: post) =
    reflow pre ++ [Span.content (exempt_span line) ++ [NL]] ++ reflow post.
Proof.
  intros pre line post Hk Hl Hr Hs. unfold reflow, paragraphs, join_spans.
  rewrite paragraphs_from_exempt by exact Hk.
  rewrite map_app. simpl map.
  destruct (tokenize_policy (exempt_span line)) as (Hs' & Hl' & Hr').
  rewrite join_spans_from_app by (rewrite Hl'; exact Hl).
  rewrite join_spans_from_forbid by (rewrite Hr'; exact Hr).
  rewrite segment_spans_app. f_equal.
  change (Span.tokenize (exempt_span line)
          :: join_spans_from (@app str) None
               (map Span.tokenize (paragraphs_from true [] post)))
    with ([Span.tokenize (exempt_span line)]
          ++ join_spans_from (@app str) None
               (map Span.tokenize (paragraphs_from true [] post))).
  rewrite segment_spans_app. f_equal.
  unfold Span.tokenize. rewrite Hs. simpl. reflexivity.
Qed.

Lemma noblank_app :
  forall a b, noblank (a ++ b) = noblank a ++ noblank b.
Proof. intros a b. unfold noblank. apply filter_app. Qed.

Lemma join_snoc :
  forall sep ts t,
    join sep (ts ++ [t]) =
    match ts with [] => t | _ => join sep ts ++ sep ++ t end.
Proof.
  intros sep ts t. induction ts as [|a ts IH]; [reflexivity|].
  destruct ts as [|b ts]; [reflexivity|].
  change (join sep ((a :: b :: ts) ++ [t]))
    with (a ++ sep ++ join sep ((b :: ts) ++ [t])).
  rewrite IH. simpl. rewrite <- !app_assoc. reflexivity.
Qed.


Lemma join_snoc2 :
  forall sep ts a b,
    join sep (ts ++ [a; b]) =
    match ts with
    | [] => a ++ sep ++ b
    | _ => join sep ts ++ sep ++ a ++ sep ++ b
    end.
Proof.
  intros sep ts a b.
  replace (ts ++ [a; b]) with ((ts ++ [a]) ++ [b])
    by (rewrite <- app_assoc; reflexivity).
  rewrite join_snoc.
  destruct ts as [|t ts]; [reflexivity|].
  destruct ((t :: ts) ++ [a]) as [|x xs] eqn:Hx; [discriminate|].
  rewrite <- Hx, join_snoc, <- !app_assoc. reflexivity.
Qed.

(** The last line of [segment] is the emission of a suffix of the token
    list with its sentinel that holds at least the last two entries. *)
Lemma segment_last_piece :
  forall tokens, tokens <> [] ->
    exists before k,
      (k < length tokens)%nat /\
      segment tokens = before ++ [emit (skipn k ([] :: tokens))].
Proof.
  intros tokens Hne.
  destruct (segment_structure tokens) as (_ & _ & Hcons).
  destruct (Hcons Hne) as (cs & Hlt & Hchain & Hseg).
  set (line := [] :: tokens) in *.
  set (k := Z.to_nat (last (snd (dp_tables line)) 0)) in *.
  destruct cs as [|k' cs]; [inversion Hchain|].
  assert (Hk : k' = k) by (inversion Hchain; reflexivity). subst k'.
  cbn [pieces map rev] in Hseg.
  exists (rev (map emit (pieces line cs k))), k.
  split; [unfold line in Hlt; simpl in Hlt; lia|].
  rewrite Hseg. unfold slice.
  rewrite firstn_all2 by (rewrite length_skipn; lia). reflexivity.
Qed.

Lemma segment_one : forall t : str, segment [t] = [t].
Proof.
  intros t.
  destruct (segment_structure [t]) as (_ & _ & Hcons).
  destruct (Hcons ltac:(discriminate)) as (cs & Hlt & Hchain & Hs).
  cbv zeta in Hlt, Hchain, Hs.
  set (c := Z.to_nat (last (snd (dp_tables [[]; t])) 0)) in *.
  assert (Hc : c = 0%nat) by (cbn [length] in Hlt; lia).
  rewrite Hc in Hchain.
  inversion Hchain as [H0|? b ? Hb Hbc]; subst; [|lia].
  rewrite Hs. cbn [length pieces map rev app].
  unfold slice, emit, noblank. simpl. destruct t; reflexivity.
Qed.




(** A comment-bearing line is appended as one token to the span flushed
    just before it, which is segmented with it. *)
Lemma reflow_comment_merged :
  forall pre line post,
    classify line = Comment ->
    exists head tokens,
      reflow pre = head ++ map (fun seg => seg ++ [NL]) (segment tokens) /\
      reflow (pre ++ line :: post) =
        head
        ++ map (fun seg => seg ++ [NL]) (segment (tokens ++ [strip line]))
        ++ reflow post.
Proof.
  intros pre line post Hk. unfold reflow, paragraphs, join_spans.
  rewrite paragraphs_from_exempt by (rewrite Hk; discriminate).
  destruct (paragraphs_from_last true pre []) as (A & cur & ->).
  destruct (paragraphs_from_head true post []) as (b & B & -> & Hb).
  unfold exempt_span. rewrite Hk.
  exists (segment_spans
            (join_spans_from (@app str) None (map Span.tokenize A))),
         (split (strip (join [] cur))).
  assert (Hfl : Span.join_left (Span.tokenize (flush cur)) <> prefer)
    by discriminate.
  split.
  - rewrite map_app. simpl map.
    rewrite join_spans_from_app by exact Hfl.
    rewrite segment_spans_app. f_equal. simpl. apply app_nil_r.
  - rewrite <- app_assoc. rewrite map_app. simpl app. simpl map.
    rewrite join_spans_from_app by exact Hfl.
    rewrite segment_spans_app. f_equal.
    rewrite join_spans_from_merge by (try discriminate; reflexivity).
    assert (Htb : Span.join_left (Span.tokenize b) <> prefer).
    { destruct (tokenize_policy b) as (_ & -> & _). rewrite Hb.
      discriminate. }
    rewrite join_spans_from_head by exact Htb.
    match goal with
    | |- segment_spans (?x :: ?l) = _ =>
        change (x :: l) with ([x] ++ l)
    end.
    rewrite segment_spans_app. f_equal.
    simpl. apply app_nil_r.
Qed.





(** ** Stripped strings *)

Lemma dropwhile_head :
  forall p s,
    dropwhile p s = [] \/
    exists c r, dropwhile p s = c :: r /\ p c = false.
Proof.
  intros p s. induction s as [|c s IH]; [left; reflexivity|].
  simpl. destruct (p c) eqn:Hc; [exact IH|].
  right. exists c, s. auto.
Qed.


Lemma rstrip_by_last :
  forall p s,
    rstrip_by p s = [] \/
    exists y c, rstrip_by p s = y ++ [c] /\ p c = false.
Proof.
  intros p s. unfold rstrip_by.
  destruct (dropwhile_head p (rev s)) as [->|(c & r & -> & Hc)];
    [left; reflexivity|].
  right. exists (rev r), c. auto.
Qed.












(** ** Plain prose lines *)

Lemma paragraphs_step_prose_eq :
  forall hyphenated current line,
    classify line = Prose ->
    paragraphs_step hyphenated current line =
    let current' :=
      current ++ [snd (prose_parts hyphenated (strip line));
                  fst (prose_parts hyphenated (strip line))] in
    if RE_ENDBREAK (snd (prose_parts hyphenated (strip line)))
    then ([Span.of_parts current' true allow forbid], [])
    else ([], current').
Proof.
  intros hyphenated current line. unfold classify, paragraphs_step,
    prose_parts.
  destruct (RE_STARTSPACE line); [discriminate|].
  destruct (length (strip line) =? 0)%nat; [discriminate|].
  destruct (RE_COMMENT (strip line)); [discriminate|].
  destruct (RE_SINGLECOMMAND (strip line)); [discriminate|].
  intros _.
  destruct (hyphenated && Ascii.eqb (last (strip line) SPACE) HYPHEN);
    reflexivity.
Qed.


(** ** Pipeline: a second run *)

Lemma paragraphs_from_soft :
  forall hyphenated items current,
    Forall (soft_prose hyphenated) items ->
    paragraphs_from hyphenated current items =
    [flush (current ++ flat_map (prose_entry hyphenated) items)].
Proof.
  induction items as [|a items IH]; intros current Hf.
  - simpl. rewrite app_nil_r. reflexivity.
  - inversion Hf as [|? ? [Hk Hb] Hrest]; subst. simpl.
    rewrite paragraphs_step_prose_eq by exact Hk. cbv zeta. rewrite Hb.
    rewrite IH by exact Hrest. simpl. rewrite <- app_assoc. reflexivity.
Qed.

(** The output for an input of prose lines that end no span: the one
    span, segmented. *)
Lemma reflow_soft :
  forall items,
    Forall (soft_prose true) items ->
    reflow items =
    map (fun seg => seg ++ [NL])
        (segment (split (join [] (flat_map (prose_entry true) items)))).
Proof.
  intros items Hf. unfold reflow, paragraphs, join_spans.
  rewrite paragraphs_from_soft by exact Hf.
  cbn [map join_spans_from Span.tokenize flush Span.of_parts Span.segment
       Span.content app].
  unfold segment_spans. cbn [flat_map Span.segment Span.content].
  rewrite app_nil_r, split_strip. reflexivity.
Qed.

Lemma join_nil_concat : forall parts, join [] parts = concat parts.
Proof.
  induction parts as [|p parts IH]; [reflexivity|].
  destruct parts as [|q parts]; [simpl; rewrite app_nil_r; reflexivity|].
  change (join [] (p :: q :: parts)) with (p ++ [] ++ join [] (q :: parts)).
  rewrite IH. reflexivity.
Qed.

Lemma plain_entry :
  forall l, plain l -> prose_entry true l = [strip l; [SPACE]].
Proof.
  intros l (_ & Hh & _). unfold prose_entry, prose_parts.
  rewrite Hh. reflexivity.
Qed.

Lemma plain_soft : forall l, plain l -> soft_prose true l.
Proof.
  intros l (Hk & Hh & Hb). split; [exact Hk|].
  unfold prose_parts. rewrite Hh. exact Hb.
Qed.

(** The tokens of the second run are the tokens of the lines. *)
Lemma split_plain_lines :
  forall ls,
    Forall plain ls ->
    split (join [] (flat_map (prose_entry true) ls)) =
    concat (map split ls).
Proof.
  intros ls Hf. rewrite join_nil_concat.
  induction Hf as [|l ls Hl Hls IH]; [reflexivity|].
  cbn [flat_map]. rewrite (plain_entry l Hl).
  cbn [app concat map].
  unfold split at 1. rewrite split_go_app_space by reflexivity.
  fold (split (strip l)). rewrite split_strip. f_equal. exact IH.
Qed.




Lemma reflow_nil : reflow [] = [].
Proof. reflexivity. Qed.

Lemma paragraphs_from_break_at :
  forall hyphenated pre current line,
    classify line = Prose ->
    RE_ENDBREAK (snd (prose_parts hyphenated (strip line))) = true ->
    exists spans current',
      forall post,
        paragraphs_from hyphenated current (pre ++ line :: post) =
        spans
        ++ Span.of_parts
             (current' ++ [snd (prose_parts hyphenated (strip line));
                           fst (prose_parts hyphenated (strip line))])
             true allow forbid
           :: paragraphs_from hyphenated [] post.
Proof.
  induction pre as [|a pre IH]; intros current line Hk Hb.
  - exists [], current. intros post. simpl.
    rewrite paragraphs_step_prose_eq by exact Hk. cbv zeta. rewrite Hb.
    reflexivity.
  - destruct (paragraphs_step hyphenated current a) as [out cur'] eqn:Hstep.
    destruct (IH cur' line Hk Hb) as (spans & c & Hall).
    exists (out ++ spans), c. intros post. simpl. rewrite Hstep, Hall.
    rewrite app_assoc. reflexivity.
Qed.

(** After a line that ends a span, the output is the output for the lines
    that follow, whatever they are. *)
Lemma reflow_boundary_at :
  forall pre line,
    ~ soft_prose true line ->
    exists out, forall post,
      reflow (pre ++ line :: post) = out ++ reflow post.
Proof.
  intros pre line Hns.
  destruct (classify line) eqn:Hk.
  1,2,4:
    exists (reflow pre ++ [Span.content (exempt_span line) ++ [NL]]);
    intros post; rewrite <- app_assoc;
    apply reflow_exempt_alone; unfold exempt_span; rewrite Hk;
    try discriminate; reflexivity.
  - destruct (paragraphs_from_last true pre []) as (A & cur & HA).
    exists (segment_spans
              (join_spans_from (@app str) None (map Span.tokenize A))
            ++ map (fun seg => seg ++ [NL])
                   (segment (split (strip (join [] cur)) ++ [strip line]))).
    intros post. unfold reflow, paragraphs, join_spans.
    rewrite paragraphs_from_exempt by (rewrite Hk; discriminate).
    rewrite HA.
    destruct (paragraphs_from_head true post []) as (b & B & -> & Hb).
    unfold exempt_span. rewrite Hk.
    assert (Hfl : Span.join_left (Span.tokenize (flush cur)) <> prefer)
      by discriminate.
    rewrite <- !app_assoc. rewrite map_app. simpl app. simpl map.
    rewrite join_spans_from_app by exact Hfl.
    rewrite segment_spans_app. f_equal.
    rewrite join_spans_from_merge by (try discriminate; reflexivity).
    assert (Htb : Span.join_left (Span.tokenize b) <> prefer).
    { destruct (tokenize_policy b) as (_ & -> & _). rewrite Hb.
      discriminate. }
    rewrite join_spans_from_head by exact Htb.
    match goal with
    | |- segment_spans (?x :: ?l) = _ =>
        change (x :: l) with ([x] ++ l)
    end.
    rewrite segment_spans_app. f_equal.
    simpl. apply app_nil_r.
  - assert (Hb : RE_ENDBREAK (snd (prose_parts true (strip line))) = true).
    { destruct (RE_ENDBREAK (snd (prose_parts true (strip line)))) eqn:Hb;
        [reflexivity|]. exfalso. apply Hns. split; assumption. }
    destruct (paragraphs_from_break_at true pre [] line Hk Hb)
      as (spans & cur & Hall).
    eexists. intros post. unfold reflow, paragraphs, join_spans.
    rewrite Hall, map_app. cbn [map].
    rewrite join_spans_from_app by discriminate.
    rewrite join_spans_from_forbid by reflexivity.
    rewrite segment_spans_app.
    match goal with
    | |- _ ++ segment_spans (?x :: ?l) = _ =>
        change (x :: l) with ([x] ++ l)
    end.
    rewrite segment_spans_app, app_assoc. reflexivity.
Qed.























(** Without a bound on the widths the condition on the class of the
    emitted lines also rules out the empty line that the Segmenter emits
    in front of a word of 300 characters: the second run reads it as a
    blank line and emits one more. *)
Lemma reflow_twice_empty_first_line :
  reflow [repeat "a"%char 300 ++ lit " b c" ++ [NL]] =
    [[NL]; repeat "a"%char 300 ++ lit " b c" ++ [NL]] /\
  reflow (reflow [repeat "a"%char 300 ++ lit " b c" ++ [NL]]) =
    [[NL]; [NL]; repeat "a"%char 300 ++ lit " b c" ++ [NL]].
Proof.
  split; vm_compute; reflexivity.
Qed.

(** * Further properties *)

(** ** Cost model: shape of the line cost *)

(** X1. The line cost is at least [COST_LINE = 40], exactly 40 at 80
    characters and nowhere else, falls with the length up to 80 characters
    and rises with it from 80 characters on. *)
Theorem line_cost_shape :
  forall a b : list str,
    40 <= line_cost a /\
    (line_cost a = 40 <-> n_chars a = 80) /\
    (n_chars a <= n_chars b -> n_chars b <= 80 ->
     line_cost b <= line_cost a) /\
    (80 <= n_chars a -> n_chars a <= n_chars b ->
     line_cost a <= line_cost b).
Proof.
  intros a b.
  unfold line_cost, COST_LINE, COST_TOOLONG, COST_LONG, CHARS_OPT,
    CHARS_MAX, CHARS_LONG.
  destruct (Z.gtb_spec (n_chars a) 120); destruct (Z.gtb_spec (n_chars a) 115);
    destruct (Z.gtb_spec (n_chars b) 120);
    destruct (Z.gtb_spec (n_chars b) 115);
    repeat split; intros; lia.
Qed.

Lemma line_cost_shape_witness :
  line_cost [lit "a"; lit "bc"] <= line_cost [lit "a"] /\
  line_cost (repeat (lit "abcdefghi") 9) <= line_cost (repeat (lit "abcdefghi") 13).
Proof.
  split.
  - apply (line_cost_shape [lit "a"] [lit "a"; lit "bc"]);
      vm_compute; discriminate.
  - apply (line_cost_shape (repeat (lit "abcdefghi") 9)
             (repeat (lit "abcdefghi") 13));
      vm_compute; discriminate.
Defined.

(** ** Tokenizer: round trip *)

(** X2. The strings that [split] returns are non-empty and free of
    whitespace; joining such strings with single spaces and splitting
    again gives them back, so that splitting, joining and splitting is
    splitting. *)
Theorem split_join_round_trip :
  (forall s, Forall token (split s)) /\
  (forall toks, Forall token toks -> split (join [SPACE] toks) = toks) /\
  (forall s, split (join [SPACE] (split s)) = split s).
Proof.
  split; [exact split_tokens|]. split; [exact split_join|].
  intros s. apply split_join, split_tokens.
Qed.

Lemma split_join_round_trip_witness :
  split (join [SPACE] [lit "to"; lit "be,"; lit "or"]) =
  [lit "to"; lit "be,"; lit "or"].
Proof.
  destruct split_join_round_trip as (_ & H & _). apply H.
  repeat constructor; try discriminate.
Defined.

(** ** Span Joiner: conservation and idempotence *)

Lemma join_spans_from_content :
  forall spans previous,
    concat (map Span.content (join_spans_from (@app str) previous spans)) =
    concat (map Span.content
                (match previous with Some p => [p] | None => [] end
                 ++ spans)).
Proof.
  induction spans as [|span spans IH]; intros previous.
  - simpl. rewrite app_nil_r. reflexivity.
  - simpl. destruct previous as [p|].
    + destruct (policy_eqb (Span.join_right p) forbid);
        [simpl; rewrite IH; reflexivity|].
      destruct (policy_eqb (Span.join_left span) prefer).
      * rewrite IH. simpl. rewrite app_assoc. reflexivity.
      * simpl. rewrite IH. reflexivity.
    + rewrite IH. reflexivity.
Qed.

Lemma join_spans_from_length :
  forall C (ext : C -> C -> C) spans previous,
    (length (join_spans_from ext previous spans) <=
     length (match previous with Some p => [p] | None => [] end ++ spans))%nat.
Proof.
  intros C ext. induction spans as [|span spans IH]; intros previous.
  - simpl. rewrite app_nil_r. lia.
  - simpl. destruct previous as [p|].
    + destruct (policy_eqb (Span.join_right p) forbid);
        [specialize (IH (Some span)); simpl in *; lia|].
      destruct (policy_eqb (Span.join_left span) prefer).
      * specialize (IH (Some (Span.extend ext p span))). simpl in *. lia.
      * specialize (IH (Some span)). simpl in *. lia.
    + specialize (IH (Some span)). simpl in *. lia.
Qed.

(** X3. The Span Joiner keeps every token, in order: the contents of the
    spans it yields, concatenated, are the contents of the spans it is
    given, concatenated; and it yields at most as many spans as it is
    given. *)
Theorem join_spans_conserves :
  forall spans,
    concat (map Span.content (join_spans spans)) =
      concat (map Span.content spans) /\
    (length (join_spans spans) <= length spans)%nat.
Proof.
  intros spans. split.
  - apply (join_spans_from_content spans None).
  - apply (join_spans_from_length _ _ spans None).
Qed.

Lemma policy_eqb_eq : forall a b, policy_eqb a b = true <-> a = b.
Proof. intros [] []; simpl; split; intros H; congruence. Qed.

Lemma join_spans_from_settled_id :
  forall C (ext : C -> C -> C) l p,
    settled (p :: l) -> join_spans_from ext (Some p) l = p :: l.
Proof.
  intros C ext. induction l as [|q l IH]; intros p Hs; [reflexivity|].
  inversion Hs as [| |? ? ? Hpq Hrest]; subst. simpl.
  rewrite (IH q Hrest).
  destruct (policy_eqb (Span.join_right p) forbid) eqn:Hr; [reflexivity|].
  destruct (policy_eqb (Span.join_left q) prefer) eqn:Hl; [|reflexivity].
  exfalso. apply policy_eqb_eq in Hl. destruct Hpq as [Hf|Hn].
  - apply policy_eqb_eq in Hf. congruence.
  - contradiction.
Qed.

Lemma join_spans_from_first :
  forall C (ext : C -> C -> C) l p,
    exists p' tl,
      join_spans_from ext (Some p) l = p' :: tl /\ same_policy p' p.
Proof.
  intros C ext. induction l as [|q l IH]; intros p.
  - exists p, []. split; [reflexivity|]. repeat split.
  - simpl. destruct (policy_eqb (Span.join_right p) forbid).
    + exists p, (join_spans_from ext (Some q) l).
      split; [reflexivity|]. repeat split.
    + destruct (policy_eqb (Span.join_left q) prefer).
      * destruct (IH (Span.extend ext p q)) as (p' & tl & -> & Hp).
        exists p', tl. split; [reflexivity|]. exact Hp.
      * exists p, (join_spans_from ext (Some q) l).
        split; [reflexivity|]. repeat split.
Qed.

Lemma join_spans_from_settled :
  forall C (ext : C -> C -> C) l p,
    settled (join_spans_from ext (Some p) l).
Proof.
  intros C ext. induction l as [|q l IH]; intros p.
  - constructor.
  - simpl.
    assert (Hemit : Span.join_right p = forbid \/
                    Span.join_left q <> prefer ->
                    settled (p :: join_spans_from ext (Some q) l)).
    { intros Hpq.
      destruct (join_spans_from_first C ext l q) as (q' & tl & Hq & Hf).
      specialize (IH q). rewrite Hq in *.
      constructor; [|exact IH].
      destruct Hf as (_ & Hl & _). rewrite Hl. exact Hpq. }
    destruct (policy_eqb (Span.join_right p) forbid) eqn:Hr.
    + apply Hemit. left. apply policy_eqb_eq. exact Hr.
    + destruct (policy_eqb (Span.join_left q) prefer) eqn:Hl.
      * apply IH.
      * apply Hemit. right. intros He. apply policy_eqb_eq in He.
        congruence.
Qed.

(** X4. Joining is idempotent: in what the Span Joiner yields nothing is
    left to merge, and joining it again changes nothing. *)
Theorem join_spans_idempotent :
  forall spans,
    settled (join_spans spans) /\
    join_spans (join_spans spans) = join_spans spans.
Proof.
  intros [|a spans]; [split; [constructor | reflexivity]|].
  unfold join_spans. simpl.
  pose proof (join_spans_from_settled _ (@app str) spans a) as Hs.
  split; [exact Hs|].
  destruct (join_spans_from (@app str) (Some a) spans) as [|p tl];
    [reflexivity|].
  simpl. apply join_spans_from_settled_id. exact Hs.
Qed.

(** ** Segmenter: edge cases *)

Lemma back_chain_length :
  forall dpback c cs, back_chain dpback c cs -> (length cs <= c + 1)%nat.
Proof.
  intros dpback c cs H. induction H; simpl; lia.
Qed.

Lemma pieces_length :
  forall line cs prev, length (pieces line cs prev) = length cs.
Proof.
  intros line cs. induction cs as [|c cs IH]; intros prev; simpl;
    [reflexivity|]. rewrite IH. reflexivity.
Qed.

(** X5. An empty span gives no line; a span of one token gives one line,
    that token, whatever its length; and a span never gives more lines
    than it has tokens, nor no line when it has a token. *)
Theorem segment_line_count :
  segment [] = [] /\
  (forall t : str, segment [t] = [t]) /\
  (forall tokens,
      (length (segment tokens) <= length tokens)%nat /\
      (tokens <> [] -> segment tokens <> [])).
Proof.
  split; [reflexivity|]. split; [exact segment_one|].
  intros tokens.
  destruct (segment_structure tokens) as (_ & Hnil & Hcons).
  destruct tokens as [|t tokens].
  { rewrite Hnil by reflexivity. split; [simpl; lia | intros H; contradiction]. }
  destruct (Hcons ltac:(discriminate)) as (cs & Hlt & Hchain & Hs).
  pose proof (back_chain_length _ _ _ Hchain) as Hlen.
  rewrite Hs, length_rev, length_map, pieces_length.
  split; [simpl in *; lia|].
  intros _ He. apply (f_equal (@length str)) in He.
  rewrite length_rev, length_map, pieces_length in He.
  inversion Hchain; subst; discriminate.
Qed.

Lemma segment_line_count_witness :
  segment [lit "word"; lit "by"; lit "word"] <> [].
Proof.
  destruct segment_line_count as (_ & _ & H).
  apply (H [lit "word"; lit "by"; lit "word"]). discriminate.
Defined.

(** X6. [segment] never breaks before the last token: the last output
    line ends with the last two tokens, joined by a space. *)
Theorem segment_keeps_last_two :
  forall tokens a b,
    a <> [] -> b <> [] ->
    exists before s,
      segment (tokens ++ [a; b]) = before ++ [s ++ a ++ [SPACE] ++ b] /\
      (s = [] \/ exists s', s = s' ++ [SPACE]).
Proof.
  intros tokens a b Ha Hb.
  destruct (segment_last_piece (tokens ++ [a; b]))
    as (before & k & Hk & Hseg).
  { destruct tokens; discriminate. }
  rewrite length_app in Hk. simpl in Hk.
  exists before.
  change ([] :: tokens ++ [a; b]) with (([] :: tokens) ++ [a; b]) in Hseg.
  rewrite skipn_app in Hseg.
  replace (k - length ([] :: tokens))%nat with 0%nat in Hseg
    by (simpl; lia).
  cbn [skipn] in Hseg. unfold emit in Hseg. rewrite noblank_app in Hseg.
  assert (Hab : noblank [a; b] = [a; b]).
  { unfold noblank. simpl. destruct a; [contradiction|].
    destruct b; [contradiction|]. reflexivity. }
  rewrite Hab, join_snoc2 in Hseg.
  destruct (noblank (skipn k ([] :: tokens))) as [|y ys] eqn:Hy.
  - exists []. split; [exact Hseg | left; reflexivity].
  - exists (join [SPACE] (y :: ys) ++ [SPACE]). split.
    + rewrite Hseg, <- !app_assoc. reflexivity.
    + right. eexists. reflexivity.
Qed.

Lemma segment_keeps_last_two_witness :
  exists before s,
    segment ([lit "one"] ++ [lit "two"; lit "three"]) =
      before ++ [s ++ lit "two" ++ [SPACE] ++ lit "three"] /\
    (s = [] \/ exists s', s = s' ++ [SPACE]).
Proof.
  apply (segment_keeps_last_two [lit "one"] (lit "two") (lit "three"));
    discriminate.
Defined.

(** ** Cost model: bounds of the static costs *)

Lemma punctuation_exclusive :
  forall c, contains [c] FULLSTOPS = true -> contains [c] COMMAS = false.
Proof.
  intros c H. unfold FULLSTOPS, COMMAS in *. simpl in *.
  rewrite !andb_true_r, !orb_false_r in *.
  apply orb_true_iff in H. destruct H as [H|H];
    [|apply orb_true_iff in H; destruct H as [H|H]];
    apply Ascii.eqb_eq in H; subst c; reflexivity.
Qed.

Lemma lex_step_floor :
  forall i token costs,
    (forall k, cost_floor i k <= nth k costs 0) ->
    forall k, cost_floor (S i) k <= nth k (lex_step i token costs) 0.
Proof.
  intros i token costs Hfl k. unfold lex_step.
  pose proof (punctuation_exclusive (last token SPACE)) as Hex.
  specialize (Hfl k). unfold cost_floor in *.
  unfold COST_FULLSTOP, COST_COMMA, COST_FUNC.
  destruct (contains [last token SPACE] FULLSTOPS);
    [rewrite Hex by reflexivity|];
    destruct (contains [last token SPACE] COMMAS);
    destruct (mem_str (lower token) FUNC_WORDS);
    destruct (Nat.ltb_spec 0 i);
    rewrite ?nth_add_at, ?add_at_length;
    repeat match goal with
      | |- context [(?a =? ?b)%nat] => destruct (Nat.eqb_spec a b)
      | |- context [(?a <? ?b)%nat] => destruct (Nat.ltb_spec a b)
      | H : context [(?a =? ?b)%nat] |- _ => destruct (Nat.eqb_spec a b)
      | H : context [(?a <? ?b)%nat] |- _ => destruct (Nat.ltb_spec a b)
      end; simpl; try lia.
Qed.

Lemma delim_step_grows :
  forall i token costs opens j d,
    (i <= length costs)%nat ->
    (forall o, nth j opens None = Some o -> (o <= i)%nat) ->
    forall k,
      nth k costs 0 <=
      nth k (fst (delim_step i token (costs, opens) (j, d))) 0.
Proof.
  intros i token costs opens j d Hi Ho k. unfold delim_step.
  destruct (contains (snd d) token) eqn:Hc.
  - rewrite andb_false_r.
    destruct (nth j opens None) as [o|] eqn:Hm; simpl; [|lia].
    destruct (Z.of_nat o >=? Z.of_nat i - SHORT_DELIM); simpl; [|lia].
    rewrite nth_add_range by (try apply Ho; auto).
    unfold COST_SHORTDELIMITED.
    destruct ((o <=? k)%nat && (k <? i)%nat); lia.
  - destruct (contains (fst d) token && negb false); simpl; lia.
Qed.

Lemma state_at_grows :
  forall line i j,
    (i < length line)%nat -> nth i line [] <> [] ->
    (j <= length DELIMS)%nat ->
    forall k,
      nth k (lex_step i (nth i line []) (fst (static_prefix line i))) 0 <=
      nth k (fst (state_at line i j)) 0.
Proof.
  intros line i j Hi Hne. induction j as [|j IH]; intros Hj k.
  - unfold state_at. simpl. lia.
  - destruct (nth_error DELIMS j) as [d|] eqn:Hd;
      [|apply nth_error_None in Hd; lia].
    rewrite (state_at_S _ _ _ _ Hd).
    destruct (state_at_inv line i j Hne ltac:(lia)
                (static_prefix_inv line i ltac:(lia))) as (Hlc & Hlo & Hm).
    specialize (IH ltac:(lia) k).
    destruct (state_at line i j) as [costs opens] eqn:Hst.
    simpl in Hlc, Hlo, Hm, IH.
    etransitivity; [exact IH|].
    apply delim_step_grows; [lia|].
    intros o Ho. specialize (Hm j d Hd). rewrite Nat.ltb_irrefl in Hm.
    apply Hm in Ho. destruct Ho as (Ho & _). lia.
Qed.

Lemma cost_floor_S : forall i k, cost_floor (S i) k <= cost_floor i k.
Proof.
  intros i k. unfold cost_floor.
  repeat match goal with
    | |- context [(?a =? ?b)%nat] => destruct (Nat.eqb_spec a b)
    | |- context [(?a <? ?b)%nat] => destruct (Nat.ltb_spec a b)
    end; lia.
Qed.

Lemma static_prefix_floor :
  forall line i, (i <= length line)%nat ->
    forall k, cost_floor i k <= nth k (fst (static_prefix line i)) 0.
Proof.
  intros line. induction i as [|i IH]; intros Hi k.
  - unfold static_prefix, sc_init, cost_floor. simpl.
    rewrite nth_repeat. destruct (k + 1)%nat; simpl; lia.
  - specialize (IH ltac:(lia)).
    destruct (list_eq_dec ascii_dec (nth i line []) []) as [He|Hne].
    + rewrite static_prefix_S by lia. unfold token_step. rewrite He.
      simpl. pose proof (cost_floor_S i k). specialize (IH k). lia.
    + rewrite <- state_at_all by (try lia; exact Hne).
      etransitivity; [|apply state_at_grows; try lia; exact Hne].
      apply lex_step_floor. exact IH.
Qed.

Lemma static_costs_floor :
  forall line k, -70 <= nth k (static_costs line) 0.
Proof.
  intros line k. unfold static_costs. rewrite <- static_prefix_all.
  pose proof (static_prefix_floor line (length line) (le_n _) k) as H.
  unfold cost_floor in H.
  repeat match type of H with
    | context [(?a =? ?b)%nat] => destruct (Nat.eqb_spec a b)
    | context [(?a <? ?b)%nat] => destruct (Nat.ltb_spec a b)
    end; lia.
Qed.

(** X7. [static_costs] returns one cost per token, and no cost is below
    -70: the bonus of a sentence end before a function word. *)
Theorem static_costs_bounds :
  forall line,
    length (static_costs line) = length line /\
    forall k, -70 <= nth k (static_costs line) 0.
Proof.
  intros line. unfold static_costs. rewrite <- static_prefix_all. split.
  - destruct (static_prefix_inv line (length line) (le_n _)) as (H & _).
    exact H.
  - intros k. rewrite static_prefix_all. apply static_costs_floor.
Qed.

(** ** Segmenter: what the tables minimise *)

Lemma descent_head :
  forall c cs, descent c cs -> exists rest, cs = c :: rest.
Proof. intros c cs H. destruct H; eauto. Qed.

Lemma chain_cost_cons :
  forall line scosts c b rest,
    chain_cost line scosts (c :: b :: rest) =
    line_cost (slice (b + 1) c line) + nth (c - 1) scosts 0
    + chain_cost line scosts (b :: rest).
Proof. reflexivity. Qed.

Lemma dp_lower_bound :
  forall line scosts m st,
    dp_inv line scosts m st ->
    forall c cs, descent c cs -> (c <= m)%nat ->
      exists v, nth c (fst st) Inf = Fin v /\
                v <= chain_cost line scosts cs.
Proof.
  intros line scosts m [dpcost dpback] (_ & _ & Hc0 & _ & _ & Hrec).
  simpl in *. intros c cs Hd.
  induction Hd as [|c b cs Hbc Hd IH]; intros Hc.
  - exists 0. split; [exact Hc0 | simpl; lia].
  - destruct (IH ltac:(lia)) as (v & Hv & Hle).
    destruct (Hrec c ltac:(lia)) as (b' & c' & _ & _ & _ & Hj & Hmin).
    destruct (Hmin b Hbc) as (ci & Hci & Hcmp & _).
    rewrite Hv in Hci. injection Hci as <-.
    eexists. split; [exact Hj|].
    destruct (descent_head _ _ Hd) as (rest & ->).
    rewrite chain_cost_cons. lia.
Qed.

Lemma dp_back_chain_cost :
  forall line scosts m st,
    dp_inv line scosts m st ->
    forall c cs, back_chain (snd st) c cs -> (c <= m)%nat ->
      descent c cs /\
      nth c (fst st) Inf = Fin (chain_cost line scosts cs).
Proof.
  intros line scosts m [dpcost dpback] (_ & _ & Hc0 & _ & _ & Hrec).
  simpl in *. intros c cs Hchain.
  induction Hchain as [H0|c b cs Hb Hbc Hchain IH]; intros Hc.
  - split; [constructor | exact Hc0].
  - destruct (IH ltac:(lia)) as (Hd & Hv).
    split; [apply (descent_step c b); assumption|].
    destruct (Hrec c ltac:(lia)) as (b' & c' & Hb' & _ & Hcb & Hj & _).
    rewrite Hb in Hb'. apply Nat2Z.inj in Hb'. subst b'.
    rewrite Hv in Hcb. injection Hcb as <-.
    rewrite Hj. destruct (descent_head _ _ Hd) as (rest & ->).
    rewrite chain_cost_cons. f_equal. lia.
Qed.

(** X8. The tables of [segment] are optimal for the cost that they
    charge: [dpcost[c]] is at most the cost of every way from [c] down to
    [0], and it is the cost of the way along the back pointers. *)
Theorem dp_tables_optimal :
  forall line0 c,
    let line := [] :: line0 in
    let dpcost := fst (dp_tables line) in
    let dpback := snd (dp_tables line) in
    (c < length line)%nat ->
    (forall cs, descent c cs ->
       exists v, nth c dpcost Inf = Fin v /\
                 v <= chain_cost line (static_costs line) cs) /\
    (exists cs, back_chain dpback c cs /\ descent c cs /\
       nth c dpcost Inf = Fin (chain_cost line (static_costs line) cs)).
Proof.
  intros line0 c line dpcost dpback Hc.
  assert (Hinv := dp_tables_inv line ltac:(simpl; lia)).
  split.
  - intros cs Hd. apply (dp_lower_bound _ _ _ _ Hinv c cs Hd). lia.
  - destruct (back_chain_exists _ _ _ Hinv c Hc) as (cs & Hchain).
    exists cs. split; [exact Hchain|].
    apply (dp_back_chain_cost _ _ _ _ Hinv c cs Hchain). lia.
Qed.

Lemma dp_tables_optimal_witness :
  exists v,
    nth 2 (fst (dp_tables [[]; lit "a"; lit "b"])) Inf = Fin v /\
    v <= chain_cost [[]; lit "a"; lit "b"]
                    (static_costs [[]; lit "a"; lit "b"]) [2; 1; 0]%nat.
Proof.
  destruct (dp_tables_optimal [lit "a"; lit "b"] 2) as [Hlow _].
  - simpl. lia.
  - apply Hlow.
    apply (descent_step 2 1); [lia|].
    apply (descent_step 1 0); [lia|]. constructor.
Defined.

(** ** Segmenter: short spans *)

Lemma join_length_app :
  forall sep a b,
    (length (join sep a) + length (join sep b) <=
     length (join sep (a ++ b)))%nat.
Proof.
  intros sep a b. induction a as [|x a IH]; [simpl; lia|].
  destruct a as [|y a].
  - simpl. destruct b as [|z b]; simpl; [lia|].
    rewrite !length_app. simpl.
    destruct b; rewrite ?length_app; lia.
  - change (join sep ((x :: y :: a) ++ b))
      with (x ++ sep ++ join sep ((y :: a) ++ b)).
    change (join sep (x :: y :: a)) with (x ++ sep ++ join sep (y :: a)).
    rewrite !length_app in *. lia.
Qed.

Lemma n_chars_app :
  forall a b, n_chars a + n_chars b <= n_chars (a ++ b).
Proof.
  intros a b. unfold n_chars. pose proof (join_length_app [SPACE] a b). lia.
Qed.

Lemma n_chars_nonneg : forall a, 0 <= n_chars a.
Proof. intros a. unfold n_chars. lia. Qed.

Lemma firstn_add_skipn :
  forall A (l : list A) n m,
    firstn (n + m) l = firstn n l ++ firstn m (skipn n l).
Proof.
  intros A l n. revert l. induction n as [|n IH]; intros l m;
    [reflexivity|].
  destruct l as [|x l]; [simpl; rewrite firstn_nil; reflexivity|].
  simpl. rewrite IH. reflexivity.
Qed.

Lemma slice_split :
  forall A (l : list A) a b c, (a <= b)%nat -> (b <= c)%nat ->
    slice a c l = slice a b l ++ slice b c l.
Proof.
  intros A l a b c Hab Hbc. unfold slice.
  replace (c - a)%nat with ((b - a) + (c - b))%nat by lia.
  rewrite firstn_add_skipn, skipn_skipn.
  replace (b - a + a)%nat with b by lia. reflexivity.
Qed.

Lemma n_chars_slice_split :
  forall line i j, (1 <= i)%nat -> (i < j)%nat ->
    n_chars (slice 1 i line) + n_chars (slice (i + 1) j line)
    <= n_chars (slice 1 j line).
Proof.
  intros line i j Hi Hij.
  rewrite (slice_split _ line 1 i j) by lia.
  rewrite (slice_split _ line i (i + 1) j) by lia.
  pose proof (n_chars_app (slice 1 i line)
                (slice i (i + 1) line ++ slice (i + 1) j line)).
  pose proof (n_chars_app (slice i (i + 1) line) (slice (i + 1) j line)).
  pose proof (n_chars_nonneg (slice i (i + 1) line)). lia.
Qed.

Lemma n_chars_prefix :
  forall tokens j, n_chars (slice 1 j ([] :: tokens)) <= n_chars tokens.
Proof.
  intros tokens j. unfold slice. cbn [skipn].
  rewrite <- (firstn_skipn (j - 1) tokens) at 2.
  pose proof (n_chars_app (firstn (j - 1) tokens) (skipn (j - 1) tokens)).
  pose proof (n_chars_nonneg (skipn (j - 1) tokens)). lia.
Qed.

Lemma line_cost_short :
  forall l, n_chars l <= 80 -> line_cost l = 120 - n_chars l.
Proof.
  intros l H.
  unfold line_cost, COST_LINE, COST_TOOLONG, COST_LONG, CHARS_OPT,
    CHARS_MAX, CHARS_LONG.
  destruct (Z.gtb_spec (n_chars l) 120); destruct (Z.gtb_spec (n_chars l) 115);
    lia.
Qed.

(** In a span of at most 80 characters every back pointer is [0]. *)
Lemma short_span_back :
  forall tokens,
    n_chars tokens <= 80 ->
    let line := [] :: tokens in
    forall j, (1 <= j < length line)%nat ->
      nth j (snd (dp_tables line)) 0 = 0 /\
      nth j (fst (dp_tables line)) Inf =
        Fin (line_cost (slice 1 j line)
             + nth (j - 1) (static_costs line) 0).
Proof.
  intros tokens Hshort line.
  destruct (dp_tables_inv line ltac:(simpl; lia))
    as (_ & _ & Hc0 & _ & _ & Hrec).
  induction j as [j IH] using lt_wf_ind. intros Hj.
  destruct (Hrec j ltac:(lia)) as (b & c & Hb & Hbj & Hcb & Hcj & Hmin).
  assert (Hb0 : b = 0%nat).
  { destruct b as [|b]; [reflexivity|]. exfalso.
    destruct (Hmin 0%nat ltac:(lia)) as (c0 & Hc0' & _ & Hlt).
    rewrite Hc0 in Hc0'. injection Hc0' as <-.
    specialize (Hlt ltac:(lia)).
    destruct (IH (S b) Hbj ltac:(lia)) as (_ & Hcost).
    rewrite Hcb in Hcost. injection Hcost as ->.
    pose proof (static_costs_floor line (S b - 1)%nat) as Hfloor.
    pose proof (n_chars_slice_split line (S b) j ltac:(lia) Hbj) as Hsp.
    pose proof (n_chars_prefix tokens j) as Hp. fold line in Hp.
    pose proof (n_chars_nonneg (slice 1 (S b) line)).
    pose proof (n_chars_nonneg (slice (S b + 1) j line)).
    cbn [Nat.add Nat.sub] in Hlt, Hfloor, Hsp, H, H0.
    rewrite !line_cost_short in Hlt by lia. lia. }
  subst b. rewrite Hc0 in Hcb. injection Hcb as <-.
  split; [exact Hb | exact Hcj].
Qed.

(** X9. A span whose tokens, joined by single spaces, have at most 80
    characters comes out as one line, whatever its punctuation, function
    words and delimiters. *)
Theorem segment_short_span :
  forall tokens,
    tokens <> [] -> n_chars tokens <= 80 ->
    segment tokens = [join [SPACE] (noblank tokens)].
Proof.
  intros tokens Hne Hshort.
  destruct (segment_structure tokens) as (_ & _ & Hcons).
  destruct (Hcons Hne) as (cs & _ & Hchain & Hseg).
  cbv zeta in Hchain, Hseg.
  set (line := [] :: tokens) in *.
  destruct (dp_tables_inv line ltac:(simpl; lia)) as (_ & Hlb & _).
  assert (Hlast : last (snd (dp_tables line)) 0 = 0).
  { rewrite last_as_nth, Hlb.
    apply (short_span_back tokens Hshort).
    unfold line. destruct tokens; [contradiction|]. simpl. lia. }
  rewrite Hlast in Hchain. simpl in Hchain.
  inversion Hchain as [H0|? b ? Hb Hbc]; subst; [|lia].
  rewrite Hseg. cbn [pieces map rev app]. unfold slice.
  rewrite Nat.sub_0_r. cbn [skipn]. rewrite firstn_all. reflexivity.
Qed.

Lemma segment_short_span_witness :
  segment (split (lit "The quick brown fox jumps over the lazy dog.")) =
  [join [SPACE]
     (noblank (split (lit "The quick brown fox jumps over the lazy dog.")))].
Proof.
  apply segment_short_span.
  - vm_compute. discriminate.
  - vm_compute. discriminate.
Defined.

(** ** Pipeline: span boundaries *)

(** X10. A blank input line gives an empty output line, between the
    output for the lines before it and the output for the lines after
    it: nothing is carried across a paragraph break. *)
Theorem blank_line_boundary :
  forall pre line post,
    classify line = Blank ->
    reflow (pre ++ line :: post) = reflow pre ++ [[NL]] ++ reflow post.
Proof.
  intros pre line post Hk.
  assert (He : exempt_span line = Span.of_str [] false allow forbid)
    by (unfold exempt_span; rewrite Hk; reflexivity).
  rewrite reflow_exempt_alone; rewrite ?He, ?Hk; try discriminate;
    reflexivity.
Qed.

Lemma blank_line_boundary_witness :
  reflow ([lit "one" ++ [NL]] ++ [NL] :: [lit "two" ++ [NL]]) =
  reflow [lit "one" ++ [NL]] ++ [[NL]] ++ reflow [lit "two" ++ [NL]].
Proof.
  apply (blank_line_boundary [lit "one" ++ [NL]] [NL] [lit "two" ++ [NL]]).
  reflexivity.
Defined.

(** X11. Every line other than a prose line without a hard line break at
    its end is a boundary: the output for the lines up to it and the output
    for the lines after it do not depend on each other. *)
Theorem reflow_span_boundary :
  forall pre line post,
    ~ soft_prose true line ->
    reflow (pre ++ line :: post) = reflow (pre ++ [line]) ++ reflow post.
Proof.
  intros pre line post Hns.
  destruct (reflow_boundary_at pre line Hns) as (out & Hout).
  rewrite (Hout post), (Hout []), reflow_nil, app_nil_r. reflexivity.
Qed.

Lemma reflow_span_boundary_witness :
  reflow ([lit "so it" ++ [NL]] ++ (lit "ends.\\" ++ [NL])
            :: [lit "Next" ++ [NL]]) =
  reflow ([lit "so it" ++ [NL]] ++ [lit "ends.\\" ++ [NL]])
  ++ reflow [lit "Next" ++ [NL]].
Proof.
  apply reflow_span_boundary.
  intros [_ H]. vm_compute in H. discriminate H.
Defined.

(** ** Classifier: whitespace at the end of a line *)

Lemma dropwhile_app_all :
  forall p a b, forallb p a = true -> dropwhile p (a ++ b) = dropwhile p b.
Proof.
  intros p a b. induction a as [|x a IH]; intros H; [reflexivity|].
  simpl in *. apply andb_true_iff in H. destruct H as [Hx Ha].
  rewrite Hx. auto.
Qed.

Lemma rstrip_by_app_all :
  forall p s w, forallb p w = true -> rstrip_by p (s ++ w) = rstrip_by p s.
Proof.
  intros p s w Hw. unfold rstrip_by.
  rewrite rev_app_distr, dropwhile_app_all by (rewrite forallb_rev; exact Hw).
  reflexivity.
Qed.

(** Stripped characters added at the end are stripped. *)
Lemma strip_by_app_all :
  forall p s w, forallb p w = true -> strip_by p (s ++ w) = strip_by p s.
Proof.
  intros p s w Hw. unfold strip_by, lstrip_by.
  destruct (dropwhile_decompose p s) as (u & Hs & Hu).
  rewrite Hs at 1. rewrite <- app_assoc, dropwhile_app_all by exact Hu.
  destruct (dropwhile_head p s) as [Hd|(c & r & Hd & Hc)]; rewrite Hd.
  - simpl. rewrite dropwhile_all by exact Hw. reflexivity.
  - simpl. rewrite Hc.
    change (c :: r ++ w) with ((c :: r) ++ w).
    apply rstrip_by_app_all. exact Hw.
Qed.

Lemma paragraphs_step_stripped :
  forall hyphenated current line line',
    RE_STARTSPACE line' = RE_STARTSPACE line ->
    strip line' = strip line ->
    strip_nl line' = strip_nl line ->
    paragraphs_step hyphenated current line' =
    paragraphs_step hyphenated current line.
Proof.
  intros hyphenated current line line' Hs Hstrip Hnl.
  unfold paragraphs_step. rewrite Hs, Hstrip, Hnl. reflexivity.
Qed.

Lemma paragraphs_step_newline :
  forall hyphenated current line,
    paragraphs_step hyphenated current (line ++ [NL]) =
    paragraphs_step hyphenated current line.
Proof.
  intros hyphenated current line. apply paragraphs_step_stripped.
  - destruct line; reflexivity.
  - apply strip_by_app_all. reflexivity.
  - apply strip_by_app_all. reflexivity.
Qed.

(** X12. The newline that ends an input line is optional: the pipeline
    gives the same output with it and without it.  On a line that does not
    start with a space or tab, no whitespace at its end matters to the
    Classifier. *)
Theorem trailing_whitespace_ignored :
  (forall items, reflow (map (fun l => l ++ [NL]) items) = reflow items) /\
  (forall hyphenated current line w,
      line <> [] -> RE_STARTSPACE line = false ->
      forallb isspace w = true ->
      paragraphs_step hyphenated current (line ++ w) =
      paragraphs_step hyphenated current line).
Proof.
  split.
  - intros items. unfold reflow, paragraphs. do 3 f_equal.
    generalize (@nil str) as current.
    induction items as [|l items IH]; intros current; [reflexivity|].
    simpl. rewrite paragraphs_step_newline.
    destruct (paragraphs_step true current l) as [out cur'].
    rewrite IH. reflexivity.
  - intros hyphenated current line w Hne Hsp Hw.
    unfold paragraphs_step.
    assert (Hs : RE_STARTSPACE (line ++ w) = false)
      by (destruct line; [contradiction | exact Hsp]).
    rewrite Hs, Hsp.
    unfold strip. rewrite strip_by_app_all by exact Hw. reflexivity.
Qed.

Lemma trailing_whitespace_ignored_witness :
  paragraphs_step true [] (lit "\item{x}" ++ lit "  ") =
  paragraphs_step true [] (lit "\item{x}").
Proof.
  destruct trailing_whitespace_ignored as [_ H].
  apply H; [discriminate | reflexivity | reflexivity].
Defined.

(** ** Pipeline: the newline that ends an output line *)

Lemma rstrip_by_no_final_newline :
  forall p s, p NL = true -> no_final_newline (rstrip_by p s).
Proof.
  intros p s Hp. unfold no_final_newline.
  destruct (rstrip_by_last p s) as [->|(y & c & -> & Hc)];
    [discriminate|].
  rewrite last_last. intros ->. congruence.
Qed.

Lemma token_no_final_newline :
  forall t, token t -> no_final_newline t.
Proof.
  intros t [Hne Hf]. unfold no_final_newline.
  destruct (exists_last Hne) as (t' & c & ->).
  rewrite last_last. intros ->.
  rewrite Forall_forall in Hf.
  specialize (Hf NL ltac:(apply in_or_app; right; left; reflexivity)).
  discriminate Hf.
Qed.

Lemma paragraphs_from_no_final_newline :
  forall hyphenated lines current s,
    In s (paragraphs_from hyphenated current lines) ->
    no_final_newline (Span.content s).
Proof.
  assert (Hflush : forall parts seg jl jr,
             no_final_newline (Span.content (Span.of_parts parts seg jl jr))).
  { intros. simpl. apply rstrip_by_no_final_newline. reflexivity. }
  induction lines as [|line lines IH]; intros current s; simpl.
  - intros [<-|[]]. apply Hflush.
  - destruct (paragraphs_step hyphenated current line) as [out current']
      eqn:Hstep.
    intros Hin. apply in_app_iff in Hin.
    destruct Hin as [Hin|Hin]; [|exact (IH _ _ Hin)].
    destruct (classify line) eqn:Hk.
    1,2,3,4:
      rewrite paragraphs_step_exempt in Hstep by (rewrite Hk; discriminate);
      injection Hstep as <- <-; unfold exempt_span in Hin; rewrite Hk in Hin;
      destruct Hin as [<-|[<-|[]]]; try apply Hflush;
      try (apply rstrip_by_no_final_newline; reflexivity); discriminate.
    rewrite paragraphs_step_prose_eq in Hstep by exact Hk.
    cbv zeta in Hstep.
    destruct (RE_ENDBREAK (snd (prose_parts hyphenated (strip line))));
      injection Hstep as <- <-; [|contradiction].
    destruct Hin as [<-|[]]. apply Hflush.
Qed.

Lemma tokenize_no_final_newline :
  forall s t,
    no_final_newline (Span.content s) ->
    In t (Span.content (Span.tokenize s)) -> no_final_newline t.
Proof.
  intros s t Hs. unfold Span.tokenize.
  destruct (Span.segment s); simpl.
  - intros Hin. apply token_no_final_newline.
    pose proof (split_tokens (Span.content s)) as Hf.
    rewrite Forall_forall in Hf. apply Hf, Hin.
  - intros [<-|[]]. exact Hs.
Qed.

Lemma last_app_nonempty :
  forall (a b : str) d, b <> [] -> last (a ++ b) d = last b d.
Proof.
  intros a b d Hb. destruct (exists_last Hb) as (b' & c & ->).
  rewrite app_assoc, !last_last. reflexivity.
Qed.

Lemma emit_no_final_newline :
  forall g, (forall t, In t g -> no_final_newline t) ->
            no_final_newline (emit g).
Proof.
  intros g Hg. unfold emit.
  destruct (noblank g) as [|x xs] eqn:Hnb; [discriminate|].
  assert (Hne : x :: xs <> []) by discriminate.
  destruct (exists_last Hne) as (ts & t & Hts).
  rewrite Hts, join_snoc.
  assert (Hin : In t (noblank g)).
  { rewrite Hnb, Hts. apply in_or_app. right. left. reflexivity. }
  unfold noblank in Hin. apply filter_In in Hin. destruct Hin as [Hin Hlen].
  assert (Ht : t <> []) by (destruct t; [discriminate Hlen | discriminate]).
  unfold no_final_newline.
  destruct ts; [exact (Hg t Hin)|].
  rewrite app_assoc, last_app_nonempty by exact Ht. exact (Hg t Hin).
Qed.

Lemma segment_no_final_newline :
  forall tokens l,
    (forall t, In t tokens -> no_final_newline t) ->
    In l (segment tokens) -> no_final_newline l.
Proof.
  intros tokens l Ht Hin.
  destruct (segment_groups tokens) as (groups & Hseg & Hcat).
  rewrite Hseg in Hin. apply in_map_iff in Hin.
  destruct Hin as (g & <- & Hg).
  apply emit_no_final_newline. intros t Htg.
  assert (Hc : In t (concat groups)) by (apply in_concat; eauto).
  rewrite Hcat in Hc. destruct tokens as [|t0 tokens]; [contradiction|].
  destruct Hc as [<-|Hc]; [discriminate | exact (Ht t Hc)].
Qed.

(** X13. Every output line ends with exactly one newline: it is a string
    that does not end with a newline, followed by the newline. *)
Theorem reflow_lines_end_with_newline :
  forall items l,
    In l (reflow items) ->
    exists s, l = s ++ [NL] /\ no_final_newline s.
Proof.
  intros items l Hin. unfold reflow, segment_spans in Hin.
  apply in_flat_map in Hin. destruct Hin as (span & Hspan & Hl).
  apply in_map_iff in Hl. destruct Hl as (s & <- & Hs).
  exists s. split; [reflexivity|].
  assert (Htok : forall t, In t (Span.content span) -> no_final_newline t).
  { intros t Ht.
    assert (Hc : In t (concat (map Span.content
                  (join_spans (map Span.tokenize (paragraphs items)))))).
    { apply in_concat. exists (Span.content span). split; [|exact Ht].
      apply in_map. exact Hspan. }
    unfold join_spans in Hc. rewrite join_spans_from_content in Hc.
    simpl in Hc. apply in_concat in Hc. destruct Hc as (c & Hc & Htc).
    apply in_map_iff in Hc. destruct Hc as (ts & <- & Hts).
    apply in_map_iff in Hts. destruct Hts as (r & <- & Hr).
    apply (tokenize_no_final_newline r t); [|exact Htc].
    exact (paragraphs_from_no_final_newline _ _ _ _ Hr). }
  destruct (Span.segment span).
  - exact (segment_no_final_newline _ _ Htok Hs).
  - exact (Htok s Hs).
Qed.

Lemma reflow_lines_end_with_newline_witness :
  exists s, lit "  kept  " ++ [NL] = s ++ [NL] /\ no_final_newline s.
Proof.
  apply (reflow_lines_end_with_newline
           [lit "  kept  " ++ [NL; NL]; lit "a b" ++ [NL]]).
  vm_compute. left. reflexivity.
Defined.

(** ** Pipeline: prose lines *)

(** X14. On an input of plain prose lines the output depends on the words
    only: it is the segmentation of the words of the lines, taken in
    order as one span. *)
Theorem reflow_plain_words :
  forall items,
    Forall plain items ->
    reflow items =
    map (fun seg => seg ++ [NL]) (segment (concat (map split items))).
Proof.
  intros items Hp.
  rewrite reflow_soft
    by (eapply Forall_impl; [apply plain_soft | exact Hp]).
  rewrite split_plain_lines by exact Hp. reflexivity.
Qed.

Lemma reflow_plain_words_witness :
  reflow [lit "First sentence here." ++ [NL];
          lit "Second sentence follows." ++ [NL]] =
  map (fun seg => seg ++ [NL])
      (segment (concat (map split [lit "First sentence here." ++ [NL];
                                   lit "Second sentence follows." ++ [NL]]))).
Proof.
  apply reflow_plain_words.
  repeat constructor; vm_compute; reflexivity.
Defined.

Lemma comment_from_none :
  forall t b, ~ In PERCENT t -> comment_from b t = false.
Proof.
  induction t as [|c t IH]; intros b Hn; [reflexivity|].
  simpl. rewrite IH by (intros H; apply Hn; right; exact H).
  destruct (Ascii.eqb_spec c PERCENT) as [->|]; [|reflexivity].
  exfalso. apply Hn. left. reflexivity.
Qed.

Lemma RE_ENDBREAK_none :
  forall t, ~ In BACKSLASH t -> RE_ENDBREAK t = false.
Proof.
  induction t as [|c t IH]; intros Hn; [reflexivity|].
  simpl. rewrite IH by (intros H; apply Hn; right; exact H).
  destruct (Ascii.eqb_spec c BACKSLASH) as [->|]; [|reflexivity].
  exfalso. apply Hn. left. reflexivity.
Qed.

Lemma strip_token : forall t w,
  token t -> forallb isspace w = true -> strip (t ++ w) = t.
Proof.
  intros t w [Hne Hf] Hw. unfold strip.
  destruct (exists_last Hne) as (t' & c & ->).
  rewrite <- app_assoc. simpl.
  assert (Hc : isspace c = false).
  { rewrite Forall_forall in Hf. apply Hf.
    apply in_or_app. right. left. reflexivity. }
  rewrite strip_by_stop by assumption. f_equal.
  destruct t' as [|a t']; [reflexivity|].
  simpl. rewrite Forall_forall in Hf.
  rewrite (Hf a ltac:(left; reflexivity)). reflexivity.
Qed.

Lemma wordlike_classify :
  forall t, wordlike t -> classify (t ++ [NL]) = Prose.
Proof.
  intros t (Ht & Hp & Hb). unfold classify.
  rewrite (strip_token t [NL] Ht eq_refl).
  destruct Ht as [Hne Hf]. destruct t as [|c r]; [contradiction|].
  assert (Hc : isspace c = false).
  { rewrite Forall_forall in Hf. apply Hf. left. reflexivity. }
  assert (Hs : RE_STARTSPACE ((c :: r) ++ [NL]) = false).
  { simpl. destruct (Ascii.eqb_spec c SPACE) as [->|]; [discriminate Hc|].
    destruct (Ascii.eqb_spec c TAB) as [->|]; [discriminate Hc|].
    reflexivity. }
  rewrite Hs. cbn [length Nat.eqb].
  unfold RE_COMMENT. rewrite comment_from_none by exact Hp.
  unfold RE_SINGLECOMMAND, single_command.
  destruct (Ascii.eqb_spec c BACKSLASH) as [->|]; [|reflexivity].
  exfalso. apply Hb. left. reflexivity.
Qed.

Lemma wordlike_hyphen :
  forall t, wordlike t -> wordlike (t ++ [HYPHEN]).
Proof.
  intros t ((Hne & Hf) & Hp & Hb). split; [split|split].
  - destruct t; discriminate.
  - apply Forall_app. split; [exact Hf | repeat constructor].
  - intros H. apply in_app_iff in H. destruct H as [H|[H|[]]];
      [contradiction | discriminate H].
  - intros H. apply in_app_iff in H. destruct H as [H|[H|[]]];
      [contradiction | discriminate H].
Qed.

(** X15. A word with a hyphen at the end of its line and the word on the
    next line come out as one word: the hyphen is dropped and no space is
    put between them. *)
Theorem hyphen_joins_words :
  forall x y,
    wordlike x -> wordlike y ->
    Ascii.eqb (last y SPACE) HYPHEN = false ->
    reflow [x ++ [HYPHEN; NL]; y ++ [NL]] = [(x ++ y) ++ [NL]].
Proof.
  intros x y Hx Hy Hlast.
  replace (x ++ [HYPHEN; NL]) with ((x ++ [HYPHEN]) ++ [NL])
    by (rewrite <- app_assoc; reflexivity).
  pose proof (wordlike_hyphen x Hx) as Hxh.
  assert (Hsx : strip ((x ++ [HYPHEN]) ++ [NL]) = x ++ [HYPHEN])
    by (apply strip_token; [apply Hxh | reflexivity]).
  assert (Hsy : strip (y ++ [NL]) = y)
    by (apply strip_token; [apply Hy | reflexivity]).
  assert (Hpx : prose_parts true (strip ((x ++ [HYPHEN]) ++ [NL])) = ([], x)).
  { rewrite Hsx. unfold prose_parts. rewrite last_last, removelast_last.
    reflexivity. }
  assert (Hpy : prose_parts true (strip (y ++ [NL])) = ([SPACE], y)).
  { rewrite Hsy. unfold prose_parts. rewrite Hlast. reflexivity. }
  rewrite reflow_soft.
  - cbn [flat_map]. unfold prose_entry. rewrite Hpx, Hpy.
    cbn [fst snd app]. rewrite join_nil_concat. cbn [concat].
    rewrite !app_nil_r. cbn [app].
    unfold split. rewrite app_assoc, split_go_app_spaces by reflexivity.
    rewrite split_go_token.
    + cbn [rev app]. rewrite segment_one. reflexivity.
    + apply Forall_app. split; [apply Hx | apply Hy].
    + destruct Hx as ((Hne & _) & _). destruct x; [contradiction|].
      discriminate.
  - constructor; [|constructor; [|constructor]].
    + split; [apply wordlike_classify; exact Hxh|].
      rewrite Hpx. apply RE_ENDBREAK_none. apply Hx.
    + split; [apply wordlike_classify; exact Hy|].
      rewrite Hpy. apply RE_ENDBREAK_none. apply Hy.
Qed.

Lemma hyphen_joins_words_witness :
  reflow [lit "super" ++ [HYPHEN; NL]; lit "computer" ++ [NL]] =
  [(lit "super" ++ lit "computer") ++ [NL]].
Proof.
  apply hyphen_joins_words.
  - repeat split; try discriminate.
    + repeat constructor.
    + vm_compute. intuition discriminate.
    + vm_compute. intuition discriminate.
  - repeat split; try discriminate.
    + repeat constructor.
    + vm_compute. intuition discriminate.
    + vm_compute. intuition discriminate.
  - reflexivity.
Defined.

(** ** Segmenter: empty lines *)

Lemma skipn_nth_cons :
  forall A (l : list A) a d, (a < length l)%nat ->
    skipn a l = nth a l d :: skipn (S a) l.
Proof.
  intros A l. induction l as [|x l IH]; intros a d H; simpl in H; [lia|].
  destruct a as [|a]; [reflexivity|].
  simpl. apply IH. lia.
Qed.

Lemma slice_cons :
  forall A (l : list A) a b d, (a < b)%nat -> (a < length l)%nat ->
    slice a b l = nth a l d :: slice (S a) b l.
Proof.
  intros A l a b d Hab Hl. unfold slice.
  rewrite (skipn_nth_cons _ l a d Hl).
  replace (b - a)%nat with (S (b - S a)) by lia. reflexivity.
Qed.

Lemma emit_nonempty :
  forall t g, t <> [] -> emit (t :: g) <> [].
Proof.
  intros t g Ht. unfold emit, noblank. simpl.
  destruct t as [|c t]; [contradiction|]. simpl.
  destruct (filter (fun x => (0 <? length x)%nat) g); discriminate.
Qed.

Lemma pieces_blank_first :
  forall line dpback c cs,
    back_chain dpback c cs ->
    (forall i, (1 <= i < length line)%nat -> nth i line [] <> []) ->
    forall prev, (c < prev)%nat -> (prev <= length line)%nat ->
      exists first rest,
        rev (map emit (pieces line cs prev)) = first :: rest /\
        Forall (fun l => l <> []) rest.
Proof.
  intros line dpback c cs Hchain Hne.
  induction Hchain as [H0|c b cs Hb Hbc Hchain IH]; intros prev Hc Hp.
  - eexists. exists []. split; [reflexivity | constructor].
  - destruct (IH c Hbc ltac:(lia)) as (first & rest & Hrev & Hrest).
    exists first, (rest ++ [emit (slice c prev line)]).
    cbn [pieces map rev]. rewrite Hrev. split; [reflexivity|].
    apply Forall_app. split; [exact Hrest|].
    constructor; [|constructor].
    rewrite (slice_cons _ line c prev []) by lia.
    apply emit_nonempty. apply Hne. lia.
Qed.

(** X16. When no token is empty, [segment] emits no empty line, except
    possibly as the first line. *)
Theorem segment_empty_line_only_first :
  forall tokens,
    tokens <> [] -> Forall (fun t => t <> []) tokens ->
    exists first rest,
      segment tokens = first :: rest /\ Forall (fun l => l <> []) rest.
Proof.
  intros tokens Hne Hf.
  destruct (segment_structure tokens) as (_ & _ & Hcons).
  destruct (Hcons Hne) as (cs & Hlt & Hchain & Hseg).
  cbv zeta in Hlt, Hchain, Hseg. rewrite Hseg.
  apply (pieces_blank_first _ _ _ _ Hchain); [|lia|lia].
  intros i Hi. destruct i as [|i]; [lia|]. simpl.
  rewrite Forall_forall in Hf. apply Hf. apply nth_In. simpl in Hi. lia.
Qed.

Lemma segment_empty_line_only_first_witness :
  exists first rest,
    segment [repeat "a"%char 300; lit "b"; lit "c"] = first :: rest /\
    Forall (fun l => l <> []) rest.
Proof.
  apply segment_empty_line_only_first.
  - discriminate.
  - repeat constructor; discriminate.
Defined.
